(** * Grefsen compositor entry point (src/compositor/main.cpp)

    A shallow embedding of the start-up shell of the compositor: the log
    message handler [qtMsgLog], the crash handler [signalHandler] with its
    installation [setupSignalHandler], and the screen selection and
    window placement done by [main].

    Conventions.
    - A [QString] is represented by the bytes of its UTF-8 encoding, so
      [toUtf8] is the identity on the representation, and so is
      [toLocal8Bit] (UTF-8 locale).  Screen names, function names and
      paths are byte strings.
    - [qint64], [int] and [pid_t] values are integers in [Z]; C division
      and remainder are [Z.quot] and [Z.rem].
    - What the operating system or Qt decides (does [fork] succeed, can
      the log file be opened, which screens exist) is an explicit input. *)

From Stdlib Require Import ZArith List String Ascii Bool Lia.
Import ListNotations.

Local Open Scope string_scope.
Local Open Scope Z_scope.

Definition QString := string.
Definition QByteArray := string.
Definition QStringList := list QString.

(** The line feed written by [log.write("\n")] and ending the crash notice. *)
Definition LF : ascii := ascii_of_nat 10.
Definition newline : string := String LF EmptyString.

Definition toUtf8 (s : QString) : QByteArray := s.
Definition toLocal8Bit (s : QString) : QByteArray := s.
(** [QByteArray::constData()]: the array's own bytes, read as a C string. *)
Definition constData (b : QByteArray) : string := b.

(** ** The subset of printf used by the program *)

Module Printf.

Inductive Conv := ConvD | ConvC | ConvS.

(** A parsed format: literal characters and conversion specifications
    with their [0] flag and minimum field width. *)
Inductive Piece :=
| Lit (c : ascii)
| Dir (zero : bool) (width : nat) (cv : Conv).

Inductive Arg :=
| ArgInt (z : Z)
| ArgChar (c : ascii)
| ArgStr (s : string).

Definition digitOf (c : ascii) : option nat :=
  let n := nat_of_ascii c in
  if (48 <=? n)%nat && (n <=? 57)%nat then Some (n - 48)%nat else None.

(** Format string parser.  [spec] is [None] in literal text and
    [Some (zero, width)] inside a conversion specification, after its [%].
    The length modifier [l]/[ll] selects the argument's C type only. *)
Fixpoint parse (spec : option (bool * nat)) (fmt : string) : list Piece :=
  match fmt with
  | EmptyString => []
  | String c rest =>
    match spec with
    | None =>
      if (c =? "%")%char then parse (Some (false, 0%nat)) rest
      else Lit c :: parse None rest
    | Some (zero, w) =>
      if (c =? "d")%char then Dir zero w ConvD :: parse None rest
      else if (c =? "c")%char then Dir zero w ConvC :: parse None rest
      else if (c =? "s")%char then Dir zero w ConvS :: parse None rest
      else if (c =? "l")%char then parse (Some (zero, w)) rest
      else if (c =? "%")%char then Lit c :: parse None rest
      else match digitOf c with
           | Some d =>
             if ((d =? 0) && (w =? 0))%nat then parse (Some (true, w)) rest
             else parse (Some (zero, 10 * w + d)%nat) rest
           | None => Lit c :: parse None rest
           end
    end
  end.

Definition digitChar (d : Z) : ascii := ascii_of_nat (48 + Z.to_nat d).

(** Decimal digits of a non-negative integer, most significant first.
    Twenty digits cover every 64-bit value. *)
Fixpoint utoa (fuel : nat) (n : Z) (acc : string) : string :=
  match fuel with
  | O => acc
  | S fuel' =>
    let acc' := String (digitChar (n mod 10)) acc in
    if n / 10 =? 0 then acc' else utoa fuel' (n / 10) acc'
  end.

Fixpoint replicate (n : nat) (c : ascii) : string :=
  match n with
  | O => EmptyString
  | S n' => String c (replicate n' c)
  end.

(** [%<width>d] and [%0<width>d]: blanks go before the sign, zeros
    between the sign and the digits. *)
Definition fmtInt (zero : bool) (width : nat) (z : Z) : string :=
  let digits := utoa 20 (Z.abs z) EmptyString in
  let sign := if z <? 0 then "-" else EmptyString in
  let pad := (width - (String.length sign + String.length digits))%nat in
  if zero then sign ++ replicate pad "0" ++ digits
  else replicate pad " " ++ sign ++ digits.

Definition fmtStr (width : nat) (s : string) : string :=
  replicate (width - String.length s) " " ++ s.

(** Output of the conversions, before any size limit.  An argument that
    does not fit its conversion is undefined behaviour in C; the program
    has none, and the model stops the output there. *)
Fixpoint vformat (ps : list Piece) (args : list Arg) : string :=
  match ps with
  | [] => EmptyString
  | Lit c :: ps' => String c (vformat ps' args)
  | Dir zero w cv :: ps' =>
    match cv, args with
    | ConvD, ArgInt z :: args' => fmtInt zero w z ++ vformat ps' args'
    | ConvC, ArgChar c :: args' => fmtStr w (String c EmptyString) ++ vformat ps' args'
    | ConvS, ArgStr s :: args' => fmtStr w s ++ vformat ps' args'
    | _, _ => EmptyString
    end
  end.

(** The first [n] bytes of [s]. *)
Fixpoint truncate (n : nat) (s : string) : string :=
  match n, s with
  | S n', String c s' => String c (truncate n' s')
  | _, _ => EmptyString
  end.

(** [snprintf(buf, size, fmt, ...)]: at most [size - 1] bytes are stored,
    followed by the terminator; the result is [buf] read as a C string. *)
Definition snprintf (size : nat) (fmt : string) (args : list Arg) : string :=
  truncate (size - 1) (vformat (parse None fmt) args).

Definition fprintf (fmt : string) (args : list Arg) : string :=
  vformat (parse None fmt) args.

End Printf.

(** ** LogSink: the Qt message handler *)

Module LogSink.
Import Printf.

(** [QtMsgType], in the order of Qt's enumeration. *)
Inductive QtMsgType :=
| QtDebugMsg | QtWarningMsg | QtCriticalMsg | QtFatalMsg | QtInfoMsg.

Definition isFatal (type : QtMsgType) : bool :=
  match type with QtFatalMsg => true | _ => false end.

(** The fields of [QMessageLogContext] the handler reads; [function] is a
    C string pointer, null ([None]) in builds without context. *)
Record QMessageLogContext := {
  function : option string;
  line : Z
}.

(** A [QFile]: its name, whether it is open, and the bytes it has
    accepted since it was opened. *)
Record QFile := {
  fileName : QString;
  isOpen : bool;
  contents : string
}.

Definition QFile_new (name : QString) : QFile :=
  {| fileName := name; isOpen := false; contents := EmptyString |}.

(** [open(WriteOnly | Text)], which truncates; [ok] is whether the file
    system lets the file be opened. *)
Definition QFile_open (ok : bool) (f : QFile) : QFile :=
  if ok then {| fileName := fileName f; isOpen := true; contents := EmptyString |}
  else f.

(** [write]: a device that is not open accepts nothing. *)
Definition QFile_write (f : QFile) (data : string) : QFile :=
  if isOpen f
  then {| fileName := fileName f; isOpen := true; contents := contents f ++ data |}
  else f.

(** How a call of the handler ends: it returns, or it calls [abort()]. *)
Inductive Outcome := Returned | Aborted.

Definition typeCharOf (type : QtMsgType) : ascii :=
  match type with
  | QtDebugMsg => "d"
  | QtInfoMsg => "i"
  | QtWarningMsg => "W"
  | QtCriticalMsg => "!"
  | QtFatalMsg => "F"
  end%char.

(** [qtMsgLog].  [log] is the function's static [QFile], [None] before
    the first call; [ts] is [sinceStartup.elapsed()]. *)
Definition qtMsgLog (logFilePath : QString) (openOk : bool) (ts : Z)
    (log : option QFile)
    (type : QtMsgType) (context : QMessageLogContext) (msg : QString)
    : QFile * Outcome :=
  let log := match log with Some f => f | None => QFile_new logFilePath end in
  let log := if negb (isOpen log) then QFile_open openOk log else log in
  let typeChar := typeCharOf type in
  let buf := snprintf 64 "[%6lld.%03lld %c] "
               [ArgInt (Z.quot ts 1000); ArgInt (Z.rem ts 1000); ArgChar typeChar] in
  let log := QFile_write log buf in
  let log :=
    match function context with
    | Some fn =>
      let buf := snprintf 64 "%s:%d: " [ArgStr fn; ArgInt (line context)] in
      QFile_write log buf
    | None => log
    end in
  let log := QFile_write log (toUtf8 msg) in
  let log := QFile_write log newline in
  (log, if isFatal type then Aborted else Returned).

(** One pending message: the clock reading when it is logged and the
    handler's three arguments. *)
Record LogRecord := {
  elapsedMillis : Z;
  severity : QtMsgType;
  origin : QMessageLogContext;
  message : QString
}.

(** The process logging a sequence of records: it goes on to the next
    record only when the handler returned. *)
Fixpoint logAll (logFilePath : QString) (openOk : bool) (log : option QFile)
    (records : list LogRecord) : option QFile * Outcome :=
  match records with
  | [] => (log, Returned)
  | r :: rest =>
    match qtMsgLog logFilePath openOk (elapsedMillis r) log
                   (severity r) (origin r) (message r) with
    | (log', Aborted) => (Some log', Aborted)
    | (log', Returned) => logAll logFilePath openOk (Some log') rest
    end
  end.

(** The file the handler writes to, after its [isOpen]/[open] lines. *)
Definition opened (path : QString) (openOk : bool) (log : option QFile) : QFile :=
  let f := match log with Some f => f | None => QFile_new path end in
  if negb (isOpen f) then QFile_open openOk f else f.

(** What the file holds when the handler starts to write, given that
    the file is open or can be opened: an open file keeps what it has
    accepted, a file opened by this call starts empty. *)
Definition contentsAtEntry (log : option QFile) : string :=
  match log with
  | Some f => if isOpen f then contents f else EmptyString
  | None => EmptyString
  end.

(** The value of a string of decimal digits, read from the left. *)
Fixpoint digitsValue (s : string) (acc : Z) : Z :=
  match s with
  | EmptyString => acc
  | String c s' => digitsValue s' (10 * acc + (Z.of_nat (nat_of_ascii c) - 48))
  end.

(** Two records of a run, neither of them fatal. *)
Definition sampleRecords : list LogRecord :=
  [ {| elapsedMillis := 5; severity := QtDebugMsg;
       origin := {| function := None; line := 0 |}; message := "a" |};
    {| elapsedMillis := 1234; severity := QtWarningMsg;
       origin := {| function := Some "foo"; line := 10 |};
       message := "bar" |} ].

(** The bytes of one record: what a call of the handler leaves in a
    log file it has just opened. *)
Definition recordText (ts : Z) (type : QtMsgType)
    (context : QMessageLogContext) (msg : QString) : string :=
  contents (fst (qtMsgLog EmptyString true ts None type context msg)).

(** The bytes of a sequence of records, one after the other. *)
Fixpoint logText (records : list LogRecord) : string :=
  match records with
  | [] => EmptyString
  | r :: rest =>
    recordText (elapsedMillis r) (severity r) (origin r) (message r)
      ++ logText rest
  end.

End LogSink.

(** ** Screens, windows and the screen-name filter *)

Module Display.

Record QRect := { rect_x : Z; rect_y : Z; rect_width : Z; rect_height : Z }.

Definition topLeft (r : QRect) : Z * Z := (rect_x r, rect_y r).
Definition size (r : QRect) : Z * Z := (rect_width r, rect_height r).

(** What the program reads of a [QScreen]; physical size and DPI only
    reach the debug output of [screenCheck]. *)
Record QScreen := { name : QString; geometry : QRect }.

(** [QWindow::Visibility], the values [showNormal] and [showFullScreen]
    lead to, and [Hidden] for a window not shown yet. *)
Inductive Visibility := Hidden | Windowed | FullScreen.

Record QWindow := {
  win_screen : option QScreen;
  win_geometry : QRect;
  win_visibility : Visibility
}.

(** Windows are objects reached through pointers. *)
Definition QWindowPtr := nat.
Definition Heap := QWindowPtr -> QWindow.

Definition store (h : Heap) (p : QWindowPtr) (w : QWindow) : Heap :=
  fun q => if Nat.eqb q p then w else h q.

(** The four [QWindow] members the program calls.  [setScreen] moves no
    window (Qt: "the window will not move automatically to newScreen"),
    and the show functions change the window state only. *)
Definition setScreen (p : QWindowPtr) (s : QScreen) (h : Heap) : Heap :=
  store h p {| win_screen := Some s;
               win_geometry := win_geometry (h p);
               win_visibility := win_visibility (h p) |}.

Definition setGeometry (p : QWindowPtr) (r : QRect) (h : Heap) : Heap :=
  store h p {| win_screen := win_screen (h p);
               win_geometry := r;
               win_visibility := win_visibility (h p) |}.

Definition showNormal (p : QWindowPtr) (h : Heap) : Heap :=
  store h p {| win_screen := win_screen (h p);
               win_geometry := win_geometry (h p);
               win_visibility := Windowed |}.

Definition showFullScreen (p : QWindowPtr) (h : Heap) : Heap :=
  store h p {| win_screen := win_screen (h p);
               win_geometry := win_geometry (h p);
               win_visibility := FullScreen |}.

(** Case folding as [Qt::CaseInsensitive] applies it to Basic Latin:
    [A]-[Z] fold to [a]-[z]; other bytes are compared as they are.  This
    is the part of Qt's folding table the examples compute with; names
    with other letters are covered by [Caseless] below, where the table
    is a parameter. *)
Definition foldCase (c : ascii) : ascii :=
  let n := nat_of_ascii c in
  if (65 <=? n)%nat && (n <=? 90)%nat then ascii_of_nat (n + 32) else c.

Fixpoint equalsCI (a b : string) : bool :=
  match a, b with
  | EmptyString, EmptyString => true
  | String x a', String y b' => (foldCase x =? foldCase y)%char && equalsCI a' b'
  | _, _ => false
  end.

Inductive CaseSensitivity := CaseInsensitive | CaseSensitive.

(** [QStringList::contains(str, cs)]. *)
Definition contains (l : QStringList) (str : QString) (cs : CaseSensitivity) : bool :=
  existsb (fun s => match cs with
                    | CaseInsensitive => equalsCI s str
                    | CaseSensitive => String.eqb s str
                    end) l.

(** The [foreach] of main that collects the screens to keep, with
    [keepers << scr] appending at the end. *)
Fixpoint keepScreens (scrNames : QStringList) (screens : list QScreen)
    (keepers : list QScreen) : list QScreen :=
  match screens with
  | [] => keepers
  | scr :: rest =>
    keepScreens scrNames rest
      (if contains scrNames (name scr) CaseInsensitive
       then keepers ++ [scr] else keepers)
  end.

End Display.

(** ** CrashGuard: the signal handler and its installation *)

Module CrashGuard.
Import Printf.

(** Linux values of the constants from the system headers. *)
Definition SIGILL : Z := 4.
Definition SIGABRT : Z := 6.
Definition SIGBUS : Z := 7.
Definition SIGFPE : Z := 8.
Definition SIGSEGV : Z := 11.
Definition SA_ONSTACK : Z := 0x08000000.
Definition SA_NODEFER : Z := 0x40000000.
Definition SA_RESETHAND : Z := 0x80000000.
Definition SIGSTKSZ : Z := 8192.
Definition PR_SET_PTRACER : Z := 0x59616d61.
Definition EXIT_FAILURE : Z := 1.

(** The process-wide variables of main.cpp. *)
Record Globals := {
  grefsonExecutablePath : QByteArray;
  grefsonPID : Z;
  signalHandlerStack : option Z;
  logFilePath : QString;
  grefsenConfigDirPath : QString
}.

(** System calls made by [signalHandler], in program order. *)
Inductive SysCall :=
| Fork
| Kill (pid sig : Z)
| WriteStderr (text : string)
| Execl (path : string) (argv : list string)
| Prctl (option arg2 : Z)
| Waitpid (pid : Z)
| Exit_ (status : Z).

(** How the handler ends in the process that runs it, when the branch
    runs to its end; what the other process does to it meanwhile is the
    subject of [crashRun] below. *)
Inductive HandlerEnd :=
| HandlerReturns
| ProcessExits (status : Z)
| ImageReplaced (path : string) (argv : list string).

(** [signalHandler].  [pid] is what [fork] returned in the process
    followed, [execOk] whether [execl] succeeds there.  The block under
    [Q_WS_X11] is not compiled with Qt 5. *)
Definition signalHandler (g : Globals) (signal : Z) (pid : Z) (execOk : bool)
    : list SysCall * HandlerEnd :=
  if pid =? -1 then
    ([Fork], HandlerReturns)
  else if pid =? 0 then
    let notice :=
      fprintf ("crashed (PID %lld SIG %d): respawn %s" ++ newline)
              [ArgInt (grefsonPID g); ArgInt signal;
               ArgStr (constData (grefsonExecutablePath g))] in
    let path := constData (grefsonExecutablePath g) in
    let argv := [constData (grefsonExecutablePath g)] in
    if execOk
    then ([Fork; Kill (grefsonPID g) 9; WriteStderr notice; Execl path argv],
          ImageReplaced path argv)
    else ([Fork; Kill (grefsonPID g) 9; WriteStderr notice; Execl path argv;
           Exit_ EXIT_FAILURE],
          ProcessExits EXIT_FAILURE)
  else
    ([Fork; Prctl PR_SET_PTRACER pid; Waitpid pid; Exit_ EXIT_FAILURE],
     ProcessExits EXIT_FAILURE).

(** Signal state of the process, as [sigaction(2)] and
    [sigaltstack(2)] keep it. *)
Inductive sighandler_t := SIG_DFL | SIG_signalHandler.

Record sigaction_t := {
  sa_handler : sighandler_t;
  sa_mask : list Z;
  sa_flags : Z
}.

Definition defaultAction : sigaction_t :=
  {| sa_handler := SIG_DFL; sa_mask := []; sa_flags := 0 |}.

Record SigState := {
  actions : Z -> sigaction_t;
  blocked : list Z;
  altstack : option Z
}.

Definition setAction (st : SigState) (sig : Z) (a : sigaction_t) : SigState :=
  {| actions := fun s => if s =? sig then a else actions st s;
     blocked := blocked st;
     altstack := altstack st |}.

Definition hasFlag (flags flag : Z) : bool := negb (Z.land flags flag =? 0).

Definition isBlocked (st : SigState) (sig : Z) : bool :=
  existsb (Z.eqb sig) (blocked st).

(** What the operating system answers to [setupSignalHandler]. *)
Record OS := {
  malloc : Z -> option Z;
  sigaltstack_ok : bool;
  sigemptyset_ok : bool;
  sigaction_ok : Z -> bool
}.

Inductive SetupWarning :=
| NoStackSpace
| NoAltStack
| NoEmptySet
| NoHandlerFor (sig : Z).

(** The loop over the zero-terminated array [signalsToHandle]. *)
Fixpoint installLoop (os : OS) (sa : sigaction_t) (signalsToHandle : list Z)
    (st : SigState) : SigState * list SetupWarning :=
  match signalsToHandle with
  | [] => (st, [])
  | sig :: rest =>
    if sig =? 0 then (st, [])
    else if sigaction_ok os sig
         then installLoop os sa rest (setAction st sig sa)
         else let (st', ws) := installLoop os sa rest st in
              (st', NoHandlerFor sig :: ws)
  end.

(** [setupSignalHandler]: the value stored in [signalHandlerStack], the
    new signal state and the warnings issued. *)
Definition setupSignalHandler (os : OS) (st : SigState)
    : option Z * SigState * list SetupWarning :=
  let ss_sp := malloc os SIGSTKSZ in
  match ss_sp with
  | None => (ss_sp, st, [NoStackSpace])
  | Some sp =>
    if negb (sigaltstack_ok os) then (ss_sp, st, [NoAltStack])
    else
      let st := {| actions := actions st; blocked := blocked st;
                   altstack := Some sp |} in
      if negb (sigemptyset_ok os) then (ss_sp, st, [NoEmptySet])
      else
        let sa := {| sa_handler := SIG_signalHandler;
                     sa_mask := [];
                     sa_flags := Z.lor (Z.lor SA_RESETHAND SA_NODEFER) SA_ONSTACK |} in
        let signalsToHandle := [SIGILL; SIGABRT; SIGFPE; SIGSEGV; SIGBUS; 0] in
        let (st', ws) := installLoop os sa signalsToHandle st in
        (ss_sp, st', ws)
  end.

(** Delivery of a signal by the kernel: blocked signals wait; the
    default action of the signals handled here ends the process; a
    handler is entered after [SA_RESETHAND] has reset the action and,
    without [SA_NODEFER], the signal itself has joined the mask. *)
Inductive Delivery :=
| StaysPending
| DefaultTermination (sig : Z)
| EntersHandler (st' : SigState) (onAltStack : bool).

Definition deliver (st : SigState) (sig : Z) : Delivery :=
  if isBlocked st sig then StaysPending
  else
    let act := actions st sig in
    match sa_handler act with
    | SIG_DFL => DefaultTermination sig
    | SIG_signalHandler =>
      let st1 := if hasFlag (sa_flags act) SA_RESETHAND
                 then setAction st sig defaultAction else st in
      let mask := if hasFlag (sa_flags act) SA_NODEFER
                  then sa_mask act else sig :: sa_mask act in
      EntersHandler {| actions := actions st1;
                       blocked := mask ++ blocked st1;
                       altstack := altstack st1 |}
                    (hasFlag (sa_flags act) SA_ONSTACK
                     && match altstack st with Some _ => true | None => false end)
    end.

(** Faults that follow one another, each raised while the handler
    entered for the one before is still running: the number of times
    the handler is entered before a delivery ends the process. *)
Fixpoint handlerEntries (st : SigState) (faults : list Z) : nat :=
  match faults with
  | [] => O
  | sig :: rest =>
    match deliver st sig with
    | EntersHandler st' _ => S (handlerEntries st' rest)
    | _ => O
    end
  end.

Definition initialSigState : SigState :=
  {| actions := fun _ => defaultAction; blocked := []; altstack := None |}.

(** The entries of a zero-terminated array before its terminator. *)
Fixpoint untilZero (arr : list Z) : list Z :=
  match arr with
  | [] => []
  | x :: rest => if x =? 0 then [] else x :: untilZero rest
  end.

Definition fatalSignals : list Z := [SIGILL; SIGABRT; SIGFPE; SIGSEGV; SIGBUS].

Definition isHandled (st : SigState) (sig : Z) : bool :=
  match sa_handler (actions st sig) with
  | SIG_signalHandler => true
  | SIG_DFL => false
  end.

(** The fatal signals whose action is the crash handler. *)
Definition armed (st : SigState) : list Z := filter (isHandled st) fatalSignals.

(** The action [setupSignalHandler] installs. *)
Definition crashAction : sigaction_t :=
  {| sa_handler := SIG_signalHandler;
     sa_mask := [];
     sa_flags := Z.lor (Z.lor SA_RESETHAND SA_NODEFER) SA_ONSTACK |}.

(** ** The two processes after fork

    [signalHandler] above gives each branch as the calls it makes when
    nothing stops it.  After [fork] the two branches run side by side,
    and the child's [kill] is aimed at [grefsonPID], the pid of the very
    process that runs the parent branch (main records it, line 183). *)

(** How a process ends: by [_exit], or killed by a signal. *)
Inductive ProcessEnd :=
| ExitedWith (status : Z)
| KilledBy (sig : Z).

(** Whose turn the scheduler gives; [ImageEnds] is the end, some time
    later, of the program the child has become through [execl]. *)
Inductive Turn := ParentTurn | ChildTurn | ImageEnds.

Record Crash := {
  parentTodo : list SysCall;        (* calls the parent has still to make *)
  parentEnd : option ProcessEnd;    (* [None] while the parent lives *)
  childTodo : list SysCall;         (* calls the child has still to make *)
  childGone : bool                  (* the child, or its new image, has ended *)
}.

Definition afterFork (calls : list SysCall) : list SysCall :=
  match calls with
  | Fork :: rest => rest
  | _ => calls
  end.

(** The two processes as [fork] leaves them; [pid] is the child's pid. *)
Definition crashStart (g : Globals) (signal : Z) (pid : Z) (execOk : bool)
    : Crash :=
  {| parentTodo := afterFork (fst (signalHandler g signal pid execOk));
     parentEnd := None;
     childTodo := afterFork (fst (signalHandler g signal 0 execOk));
     childGone := false |}.

(** One call of the parent.  [waitpid] returns only once the child has
    ended; a process that has ended makes no call. *)
Definition parentStep (c : Crash) : Crash :=
  match parentEnd c with
  | Some _ => c
  | None =>
    match parentTodo c with
    | [] => c
    | Waitpid _ :: rest =>
      if childGone c
      then {| parentTodo := rest; parentEnd := None;
              childTodo := childTodo c; childGone := childGone c |}
      else c
    | Exit_ status :: _ =>
      {| parentTodo := []; parentEnd := Some (ExitedWith status);
         childTodo := childTodo c; childGone := childGone c |}
    | _ :: rest =>
      {| parentTodo := rest; parentEnd := None;
         childTodo := childTodo c; childGone := childGone c |}
    end
  end.

(** One call of the child.  [self] is the pid of the parent; signal 9
    cannot be caught, so a [kill] with it that succeeds ends its target
    at once.  [killOk] is whether the system lets the call succeed. *)
Definition childStep (self : Z) (killOk : bool) (c : Crash) : Crash :=
  if childGone c then c
  else
    match childTodo c with
    | [] => c
    | Kill target sig :: rest =>
      {| parentTodo := parentTodo c;
         parentEnd :=
           match parentEnd c with
           | None =>
             if killOk && (target =? self) && (sig =? 9)
             then Some (KilledBy sig) else None
           | Some e => Some e
           end;
         childTodo := rest; childGone := false |}
    | Exit_ _ :: _ =>
      {| parentTodo := parentTodo c; parentEnd := parentEnd c;
         childTodo := []; childGone := true |}
    | _ :: rest =>
      {| parentTodo := parentTodo c; parentEnd := parentEnd c;
         childTodo := rest; childGone := false |}
    end.

(** The respawned program ends: possible only once the child has
    become it, all its own calls made. *)
Definition imageEnds (c : Crash) : Crash :=
  match childTodo c with
  | [] => {| parentTodo := parentTodo c; parentEnd := parentEnd c;
             childTodo := []; childGone := true |}
  | _ :: _ => c
  end.

Definition crashStep (self : Z) (killOk : bool) (c : Crash) (t : Turn) : Crash :=
  match t with
  | ParentTurn => parentStep c
  | ChildTurn => childStep self killOk c
  | ImageEnds => imageEnds c
  end.

(** The two processes under a schedule. *)
Definition crashRun (self : Z) (killOk : bool) (c : Crash) (schedule : list Turn)
    : Crash :=
  fold_left (crashStep self killOk) schedule c.


End CrashGuard.

(** ** Entry: main *)

Module Entry.
Import Display CrashGuard.

(** The parsed command line: [-r], [-l file], [-c dir], [-s screen]...
    and [-w].  An option that takes a value is [None] when it is not set. *)
Record Options := {
  respawnOption : bool;
  logFileOption : option QString;
  configDirOption : option QString;
  screenOption : option QStringList;
  windowOption : bool
}.

(** What Qt and the operating system hand to main. *)
Record Env := {
  applicationFilePath : QString;
  applicationPid : Z;
  homePath : QString;
  allScreens : list QScreen;       (* QGuiApplication::screens() *)
  childWindows : list QWindowPtr;  (* root->findChildren<QWindow *>() *)
  os : OS;
  execResult : Z                   (* what app.exec() returns *)
}.

Inductive GlobalVar :=
| Var_grefsonExecutablePath
| Var_grefsonPID
| Var_signalHandlerStack
| Var_logFilePath
| Var_grefsenConfigDirPath.

(** What main does that can be observed from outside it. *)
Inductive Event :=
| SetupWarned (w : SetupWarning)
| MessageHandlerInstalled
| WarnedNoScreens (scrNames : QStringList)
| WarnedAvailable (scrName : QString) (geom : QRect)
| DebugScreen (scr : QScreen)
| FullscreenAllowedSet (allowed : bool)
| CalledSetScreen (window : QWindowPtr) (screen : QScreen)
| CalledShowNormal (window : QWindowPtr)
| CalledSetGeometry (window : QWindowPtr) (geom : QRect)
| CalledShowFullScreen (window : QWindowPtr)
| EventLoopEntered.

Record World := {
  globals : Globals;
  assigned : list GlobalVar;   (* assignments to globals, oldest first *)
  sigState : SigState;
  heap : Heap;
  events : list Event          (* oldest first *)
}.

(** A statement either goes on with a value or leaves main with its
    return value. *)
Inductive Flow (A : Type) :=
| Next (a : A)
| Leave (code : Z).
Arguments Next {A} a.
Arguments Leave {A} code.

Definition Prog (A : Type) := World -> Flow A * World.

Definition pure {A} (a : A) : Prog A := fun w => (Next a, w).
Definition leave {A} (code : Z) : Prog A := fun w => (Leave code, w).
Definition bind {A B} (c : Prog A) (k : A -> Prog B) : Prog B :=
  fun w => match c w with
           | (Next a, w') => k a w'
           | (Leave code, w') => (Leave code, w')
           end.

Notation "x <- c ;; k" := (bind c (fun x => k))
  (at level 61, c at next level, right associativity).
Notation "c ;; k" := (bind c (fun _ => k))
  (at level 61, right associativity).

Definition emit (e : Event) : Prog unit :=
  fun w => (Next tt, {| globals := globals w; assigned := assigned w;
                        sigState := sigState w; heap := heap w;
                        events := events w ++ [e] |}).

Definition onHeap (f : Heap -> Heap) : Prog unit :=
  fun w => (Next tt, {| globals := globals w; assigned := assigned w;
                        sigState := sigState w; heap := f (heap w);
                        events := events w |}).

Definition setGlobals (g : Globals) (v : GlobalVar) : Prog unit :=
  fun w => (Next tt, {| globals := g; assigned := assigned w ++ [v];
                        sigState := sigState w; heap := heap w;
                        events := events w |}).

Definition getGlobals : Prog Globals := fun w => (Next (globals w), w).

Definition assign_grefsonExecutablePath (v : QByteArray) : Prog unit :=
  g <- getGlobals ;;
  setGlobals {| grefsonExecutablePath := v; grefsonPID := grefsonPID g;
                signalHandlerStack := signalHandlerStack g;
                logFilePath := logFilePath g;
                grefsenConfigDirPath := grefsenConfigDirPath g |}
             Var_grefsonExecutablePath.

Definition assign_grefsonPID (v : Z) : Prog unit :=
  g <- getGlobals ;;
  setGlobals {| grefsonExecutablePath := grefsonExecutablePath g; grefsonPID := v;
                signalHandlerStack := signalHandlerStack g;
                logFilePath := logFilePath g;
                grefsenConfigDirPath := grefsenConfigDirPath g |}
             Var_grefsonPID.

Definition assign_signalHandlerStack (v : option Z) : Prog unit :=
  g <- getGlobals ;;
  setGlobals {| grefsonExecutablePath := grefsonExecutablePath g;
                grefsonPID := grefsonPID g;
                signalHandlerStack := v;
                logFilePath := logFilePath g;
                grefsenConfigDirPath := grefsenConfigDirPath g |}
             Var_signalHandlerStack.

Definition assign_logFilePath (v : QString) : Prog unit :=
  g <- getGlobals ;;
  setGlobals {| grefsonExecutablePath := grefsonExecutablePath g;
                grefsonPID := grefsonPID g;
                signalHandlerStack := signalHandlerStack g;
                logFilePath := v;
                grefsenConfigDirPath := grefsenConfigDirPath g |}
             Var_logFilePath.

Definition assign_grefsenConfigDirPath (v : QString) : Prog unit :=
  g <- getGlobals ;;
  setGlobals {| grefsonExecutablePath := grefsonExecutablePath g;
                grefsonPID := grefsonPID g;
                signalHandlerStack := signalHandlerStack g;
                logFilePath := logFilePath g;
                grefsenConfigDirPath := v |}
             Var_grefsenConfigDirPath.

Fixpoint forEach {A} (l : list A) (body : A -> Prog unit) : Prog unit :=
  match l with
  | [] => pure tt
  | a :: rest => body a ;; forEach rest body
  end.

(** The call of [setupSignalHandler] from main. *)
Definition callSetupSignalHandler (os : OS) : Prog unit :=
  fun w =>
    match setupSignalHandler os (sigState w) with
    | (ss_sp, st', warnings) =>
      (assign_signalHandlerStack ss_sp ;;
       forEach warnings (fun x => emit (SetupWarned x)))
        {| globals := globals w; assigned := assigned w; sigState := st';
           heap := heap w; events := events w |}
    end.

Definition screenCheck (screens : list QScreen) : Prog unit :=
  forEach screens (fun scr => emit (DebugScreen scr)).

(** The loop of lines 264-278: two iterators advance together until
    either reaches its end. *)
Fixpoint windowLoop (windowed : bool)
    (windowIter : list QWindowPtr) (screenIter : list QScreen) : Prog unit :=
  match windowIter, screenIter with
  | window :: windowIter', screen :: screenIter' =>
    onHeap (setScreen window screen) ;; emit (CalledSetScreen window screen) ;;
    (if windowed then
       onHeap (showNormal window) ;; emit (CalledShowNormal window)
     else
       onHeap (setGeometry window (geometry screen)) ;;
       emit (CalledSetGeometry window (geometry screen)) ;;
       onHeap (showFullScreen window) ;; emit (CalledShowFullScreen window)) ;;
    windowLoop windowed windowIter' screenIter'
  | _, _ => pure tt
  end.

(** The screen selection of lines 225-238: the screens main goes on
    with, or the early [return -1]. *)
Definition selectScreens (opts : Options) (screens : list QScreen)
    : Prog (list QScreen) :=
  match screenOption opts with
  | Some scrNames =>
    let keepers := keepScreens scrNames screens [] in
    match keepers with
    | [] =>
      emit (WarnedNoScreens scrNames) ;;
      forEach screens (fun scr => emit (WarnedAvailable (name scr) (geometry scr))) ;;
      leave (-1)
    | _ :: _ => pure keepers
    end
  | None => pure screens
  end.

(** [main], from line 182 on, in three parts.  The environment
    variables set before, the font look-ups, the type registration and
    the loading of the QML scene act on collaborators outside the
    modelled state. *)

(** Lines 182-224: the identity of the process is recorded, then the
    options [-r], [-c] and [-l] take effect. *)
Definition captureAndConfigure (env : Env) (opts : Options) : Prog unit :=
  assign_grefsonExecutablePath (toLocal8Bit (applicationFilePath env)) ;;
  assign_grefsonPID (applicationPid env) ;;
  (if respawnOption opts then callSetupSignalHandler (os env) else pure tt) ;;
  match configDirOption opts with
  | Some dir => assign_grefsenConfigDirPath dir
  | None => pure tt
  end ;;
  match logFileOption opts with
  | Some path => assign_logFilePath path ;; emit MessageHandlerInstalled
  | None => pure tt
  end.

(** Lines 239-280: the windows are placed on [screens] and the event
    loop runs. *)
Definition placeAndRun (env : Env) (opts : Options) (screens : list QScreen)
    : Prog Z :=
  let windowed := false in
  let windowed := if windowOption opts then true else windowed in
  screenCheck screens ;;
  emit (FullscreenAllowedSet (negb windowed)) ;;
  let windows := childWindows env in
  windowLoop windowed windows screens ;;
  emit EventLoopEntered ;;
  pure (execResult env).

Definition main (env : Env) (opts : Options) : Prog Z :=
  captureAndConfigure env opts ;;
  screens <- selectScreens opts (allScreens env) ;;
  placeAndRun env opts screens.

(** The state main starts in: the globals as their initialisers leave
    them, every signal at its default action, the windows as the scene
    created them. *)
Definition initialWorld (env : Env) (h : Heap) : World :=
  {| globals := {| grefsonExecutablePath := EmptyString;
                   grefsonPID := 0;
                   signalHandlerStack := None;
                   logFilePath := EmptyString;
                   grefsenConfigDirPath := homePath env ++ "/.config/grefsen/" |};
     assigned := [];
     sigState := initialSigState;
     heap := h;
     events := [] |}.

(** The exit status a parent process sees for a value returned by main. *)
Definition exitStatus (code : Z) : Z := Z.land code 255.

(** The window/screen pairs of a run: the [setScreen] calls, in order. *)
Fixpoint assignments (evs : list Event) : list (QWindowPtr * QScreen) :=
  match evs with
  | [] => []
  | CalledSetScreen window screen :: rest => (window, screen) :: assignments rest
  | _ :: rest => assignments rest
  end.

Definition isWindowCall (e : Event) : bool :=
  match e with
  | CalledSetScreen _ _ | CalledShowNormal _
  | CalledSetGeometry _ _ | CalledShowFullScreen _ => true
  | _ => false
  end.

(** The two variables that identify the process. *)
Definition isIdentityVar (v : GlobalVar) : bool :=
  match v with
  | Var_grefsonExecutablePath | Var_grefsonPID => true
  | _ => false
  end.

(** The events of lines 182-224. *)
Definition isStartupEvent (e : Event) : bool :=
  match e with
  | SetupWarned _ | MessageHandlerInstalled => true
  | _ => false
  end.

(** A world after further events. *)
Definition withEvents (w : World) (evs : list Event) : World :=
  {| globals := globals w; assigned := assigned w; sigState := sigState w;
     heap := heap w; events := events w ++ evs |}.

(** The calls one pass of the loop body makes, and what they do to the
    window. *)
Definition callsFor (windowed : bool) (pair : QWindowPtr * QScreen) : list Event :=
  let (window, screen) := pair in
  if windowed
  then [CalledSetScreen window screen; CalledShowNormal window]
  else [CalledSetScreen window screen;
        CalledSetGeometry window (geometry screen);
        CalledShowFullScreen window].

Definition place (windowed : bool) (h : Heap) (pair : QWindowPtr * QScreen) : Heap :=
  let (window, screen) := pair in
  if windowed
  then showNormal window (setScreen window screen h)
  else showFullScreen window
         (setGeometry window (geometry screen) (setScreen window screen h)).

(** The screens main goes on with when it does not leave early. *)
Definition selectedScreens (env : Env) (opts : Options) : list QScreen :=
  match screenOption opts with
  | Some scrNames => keepScreens scrNames (allScreens env) []
  | None => allScreens env
  end.

(** Two screens side by side and a scene of windows not shown yet, all
    at the position and size the scene gave them. *)
Definition screenLeft : QScreen :=
  {| name := "HDMI-1";
     geometry := {| rect_x := 0; rect_y := 0;
                    rect_width := 1920; rect_height := 1080 |} |}.

Definition screenRight : QScreen :=
  {| name := "eDP-1";
     geometry := {| rect_x := 1920; rect_y := 0;
                    rect_width := 1366; rect_height := 768 |} |}.

Definition sceneHeap : Heap :=
  fun _ => {| win_screen := None;
              win_geometry := {| rect_x := 0; rect_y := 0;
                                 rect_width := 1024; rect_height := 768 |};
              win_visibility := Hidden |}.

Definition sampleEnv : Env :=
  {| applicationFilePath := "/usr/bin/grefsen";
     applicationPid := 4711;
     homePath := "/home/user";
     allScreens := [screenLeft; screenRight];
     childWindows := [1%nat; 2%nat];
     os := {| malloc := fun _ => Some 4096;
              sigaltstack_ok := true;
              sigemptyset_ok := true;
              sigaction_ok := fun _ => true |};
     execResult := 0 |}.

End Entry.

(** ** Words of the specification *)

Module Spec.

(** Two characters are the same letter when they are equal or one is
    the capital of the other. *)
Definition capitalOf (lower upper : ascii) : bool :=
  let u := nat_of_ascii upper in
  ((65 <=? u) && (u <=? 90) && (nat_of_ascii lower =? u + 32))%nat.

Definition sameLetter (a b : ascii) : bool :=
  (a =? b)%char || capitalOf a b || capitalOf b a.

(** Two names that differ only in letter case. *)
Fixpoint differOnlyInCase (a b : string) : bool :=
  match a, b with
  | EmptyString, EmptyString => true
  | String x a', String y b' => sameLetter x y && differOnlyInCase a' b'
  | _, _ => false
  end.

(** A window is at the origin of a display when their top-left corners
    coincide. *)
Definition atOriginOf (w : Display.QWindow) (s : Display.QScreen) : Prop :=
  Display.topLeft (Display.win_geometry w) = Display.topLeft (Display.geometry s).

End Spec.

(** ** Case-insensitive matching over any case-folding table

    [QStringList::contains(str, Qt::CaseInsensitive)] compares two
    strings character by character after case folding, with the folding
    table of the Unicode data Qt is built with.  The filter of lines
    226-230 is given here over any alphabet and any folding table;
    [Display.keepScreens] is its instance at bytes and the Basic Latin
    rows of the table. *)

Module Caseless.

Section Fold.

Variable Char : Type.
Variable charEqb : Char -> Char -> bool.
Variable toCaseFolded : Char -> Char.
Variable Screen : Type.
Variable nameOf : Screen -> list Char.

Fixpoint equalsCI (a b : list Char) : bool :=
  match a, b with
  | [], [] => true
  | x :: a', y :: b' =>
    charEqb (toCaseFolded x) (toCaseFolded y) && equalsCI a' b'
  | _, _ => false
  end.

Definition contains (l : list (list Char)) (str : list Char) : bool :=
  existsb (fun s => equalsCI s str) l.

Fixpoint keepScreens (scrNames : list (list Char)) (screens : list Screen)
    (keepers : list Screen) : list Screen :=
  match screens with
  | [] => keepers
  | scr :: rest =>
    keepScreens scrNames rest
      (if contains scrNames (nameOf scr)
       then (keepers ++ [scr])%list else keepers)
  end.

(** Two strings differ only in letter case when case folding makes
    them the same string (Unicode's caseless match). *)
Definition caselessMatch (a b : list Char) : Prop :=
  map toCaseFolded a = map toCaseFolded b.

End Fold.

(** The instance the rest of the file computes with. *)
Definition bytes (s : QString) : list ascii := list_ascii_of_string s.

Definition screenBytes (scr : Display.QScreen) : list ascii :=
  bytes (Display.name scr).

End Caseless.

(** * Properties *)

Import Printf LogSink Display CrashGuard Entry Spec.

(** ** Strings *)

Section StringFacts.

Lemma length_append (a b : string) :
  String.length (a ++ b) = (String.length a + String.length b)%nat.
Proof.
  induction a as [|c a IH]; simpl; [reflexivity | now rewrite IH].
Qed.

Lemma append_assoc (a b c : string) : (a ++ b) ++ c = a ++ b ++ c.
Proof.
  induction a as [|x a IH]; simpl; [reflexivity | now rewrite IH].
Qed.

Lemma length_replicate (n : nat) (c : ascii) : String.length (replicate n c) = n.
Proof.
  induction n as [|n IH]; simpl; [reflexivity | now rewrite IH].
Qed.

Lemma truncate_fits (n : nat) (s : string) :
  (String.length s <= n)%nat -> truncate n s = s.
Proof.
  revert n; induction s as [|c s IH]; intros [|n] H; simpl in *;
    try reflexivity; try lia.
  f_equal; apply IH; lia.
Qed.

Lemma length_truncate (n : nat) (s : string) :
  String.length (truncate n s) = Nat.min n (String.length s).
Proof.
  revert n; induction s as [|c s IH]; intros [|n]; simpl; try reflexivity.
  now rewrite IH.
Qed.

(** A truncated string is an initial segment of the whole. *)
Lemma truncate_prefix (n : nat) (s : string) :
  exists rest, s = truncate n s ++ rest
               /\ String.length rest = (String.length s - n)%nat.
Proof.
  revert n; induction s as [|c s IH]; intros n.
  - exists EmptyString; destruct n; simpl; auto.
  - destruct n as [|n]; simpl.
    + exists (String c s); auto.
    + destruct (IH n) as (rest & E & L).
      exists rest; split; [now rewrite <- E | exact L].
Qed.

End StringFacts.

(** ** printf *)

Section PrintfFacts.

Lemma length_utoa (fuel : nat) (n : Z) (acc : string) :
  (String.length (utoa fuel n acc) <= fuel + String.length acc)%nat.
Proof.
  revert n acc; induction fuel as [|fuel IH]; intros n acc; simpl.
  - lia.
  - destruct (n / 10 =? 0); simpl; [lia|].
    specialize (IH (n / 10) (String (digitChar (n mod 10)) acc)).
    simpl in IH; lia.
Qed.

Lemma utoa_step (fuel : nat) (n : Z) (acc : string) :
  utoa (S fuel) n acc
  = if n / 10 =? 0 then String (digitChar (n mod 10)) acc
    else utoa fuel (n / 10) (String (digitChar (n mod 10)) acc).
Proof. reflexivity. Qed.

(** No conversion of an integer is longer than its field width or than
    a sign and twenty digits. *)
Lemma length_fmtInt (zero : bool) (width : nat) (z : Z) :
  (String.length (fmtInt zero width z) <= Nat.max width 21)%nat.
Proof.
  unfold fmtInt.
  pose proof (length_utoa 20 (Z.abs z) EmptyString) as Hd.
  set (digits := utoa 20 (Z.abs z) EmptyString) in *.
  change (String.length EmptyString) with 0%nat in Hd.
  destruct zero, (z <? 0);
    repeat rewrite length_append; rewrite length_replicate;
    cbn [String.length]; lia.
Qed.

(** The millisecond field [%03lld] of a non-negative clock reading is
    its hundreds, tens and units digits. *)
Lemma fmtInt_millis (m : Z) :
  0 <= m < 1000 ->
  fmtInt true 3 m
  = String (digitChar (m / 100))
      (String (digitChar (m / 10 mod 10))
         (String (digitChar (m mod 10)) EmptyString)).
Proof.
  intros Hm. unfold fmtInt.
  replace (m <? 0) with false by (symmetry; apply Z.ltb_ge; lia).
  rewrite Z.abs_eq by lia.
  assert (E100 : m / 10 / 10 = m / 100)
    by (rewrite Z.div_div by lia; reflexivity).
  assert (H1000 : m / 10 / 10 / 10 = 0)
    by (rewrite E100, Z.div_div by lia; apply Z.div_small; lia).
  assert (Hsmall : (m / 100) mod 10 = m / 100).
  { apply Z.mod_small.
    split; [apply Z.div_pos; lia | apply Z.div_lt_upper_bound; lia]. }
  rewrite (utoa_step 19 m).
  destruct (Z.eqb_spec (m / 10) 0) as [E1|N1].
  - replace (m / 100) with 0 by (rewrite <- E100, E1; reflexivity).
    rewrite E1. reflexivity.
  - rewrite (utoa_step 18 (m / 10)).
    destruct (Z.eqb_spec (m / 10 / 10) 0) as [E2|N2].
    + rewrite <- E100, E2. reflexivity.
    + rewrite (utoa_step 17 (m / 10 / 10)), H1000, E100, Hsmall.
      reflexivity.
Qed.

Lemma vformat_prefix (secs ms : Z) (c : ascii) :
  vformat (parse None "[%6lld.%03lld %c] ") [ArgInt secs; ArgInt ms; ArgChar c]
  = "[" ++ fmtInt false 6 secs ++ "." ++ fmtInt true 3 ms ++ " "
        ++ String c "] ".
Proof.
  change (parse None "[%6lld.%03lld %c] ")
    with [Lit "["; Dir false 6 ConvD; Lit "."; Dir true 3 ConvD; Lit " ";
          Dir false 0 ConvC; Lit "]"; Lit " "]%char.
  reflexivity.
Qed.

Lemma vformat_origin (fn : string) (ln : Z) :
  vformat (parse None "%s:%d: ") [ArgStr fn; ArgInt ln]
  = fn ++ ":" ++ fmtInt false 0 ln ++ ": ".
Proof.
  change (parse None "%s:%d: ")
    with [Dir false 0 ConvS; Lit ":"; Dir false 0 ConvD; Lit ":"; Lit " "]%char.
  cbn [vformat]. unfold fmtStr.
  change (0 - String.length fn)%nat with 0%nat. reflexivity.
Qed.

(** The timestamp prefix always fits the 64-byte buffer. *)
Lemma snprintf_prefix (secs ms : Z) (c : ascii) :
  snprintf 64 "[%6lld.%03lld %c] " [ArgInt secs; ArgInt ms; ArgChar c]
  = "[" ++ fmtInt false 6 secs ++ "." ++ fmtInt true 3 ms ++ " "
        ++ String c "] ".
Proof.
  unfold snprintf. rewrite vformat_prefix. apply truncate_fits.
  pose proof (length_fmtInt false 6 secs) as Hs.
  pose proof (length_fmtInt true 3 ms) as Hm.
  set (a := fmtInt false 6 secs) in *. set (b := fmtInt true 3 ms) in *.
  cbn [append String.length]. rewrite length_append.
  cbn [append String.length]. rewrite length_append.
  cbn [append String.length]. lia.
Qed.

End PrintfFacts.

(** ** LogSink *)

Section LogSinkFacts.

Variable path : QString.

Lemma digitChar_value (d : Z) :
  0 <= d < 10 -> Z.of_nat (nat_of_ascii (digitChar d)) - 48 = d.
Proof.
  intros H. unfold digitChar.
  rewrite nat_ascii_embedding by lia. lia.
Qed.

(** [utoa] prints the decimal numeral of its argument. *)
Lemma utoa_value (fuel : nat) (n : Z) (acc : string) :
  0 <= n < 10 ^ Z.of_nat fuel ->
  digitsValue (utoa fuel n acc) 0 = digitsValue acc n.
Proof.
  revert n acc; induction fuel as [|fuel IH]; intros n acc Hn.
  - change (10 ^ Z.of_nat 0) with 1 in Hn.
    replace n with 0 by lia. reflexivity.
  - rewrite Nat2Z.inj_succ, Z.pow_succ_r in Hn by lia.
    pose proof (Z.div_mod n 10 ltac:(lia)) as Hdm.
    pose proof (Z.mod_pos_bound n 10 ltac:(lia)) as Hmod.
    cbn [utoa].
    destruct (Z.eqb_spec (n / 10) 0) as [E|N].
    + cbn [digitsValue]. rewrite digitChar_value by exact Hmod.
      f_equal. lia.
    + rewrite IH.
      * cbn [digitsValue]. rewrite digitChar_value by exact Hmod.
        f_equal. lia.
      * split; [apply Z.div_pos; lia | apply Z.div_lt_upper_bound; lia].
Qed.

Lemma fmtInt_nonneg (width : nat) (z : Z) :
  0 <= z ->
  fmtInt false width z
  = replicate (width - String.length (utoa 20 z EmptyString)) " "
      ++ utoa 20 z EmptyString.
Proof.
  intros Hz. unfold fmtInt.
  replace (z <? 0) with false by (symmetry; apply Z.ltb_ge; lia).
  rewrite Z.abs_eq by lia. reflexivity.
Qed.

Lemma isOpen_write (f : QFile) (data : string) :
  isOpen (QFile_write f data) = isOpen f.
Proof. unfold QFile_write; destruct (isOpen f) eqn:E; simpl; auto. Qed.

Lemma contents_write (f : QFile) (data : string) :
  isOpen f = true -> contents (QFile_write f data) = contents f ++ data.
Proof. intros E; unfold QFile_write; rewrite E; reflexivity. Qed.

Lemma opened_ok (log : option QFile) :
  isOpen (opened path true log) = true
  /\ contents (opened path true log) = contentsAtEntry log.
Proof.
  unfold opened, contentsAtEntry.
  destruct log as [f|]; simpl; [destruct (isOpen f) eqn:E; simpl; auto | auto].
Qed.

(** The handler is four writes to the opened file, then its verdict. *)
Lemma qtMsgLog_writes (openOk : bool) (ts : Z) (log : option QFile)
    (type : QtMsgType) (context : QMessageLogContext) (msg : QString) :
  qtMsgLog path openOk ts log type context msg
  = (QFile_write
       (QFile_write
          (match function context with
           | Some fn =>
             QFile_write
               (QFile_write (opened path openOk log)
                  (snprintf 64 "[%6lld.%03lld %c] "
                     [ArgInt (Z.quot ts 1000); ArgInt (Z.rem ts 1000);
                      ArgChar (typeCharOf type)]))
               (snprintf 64 "%s:%d: " [ArgStr fn; ArgInt (line context)])
           | None =>
             QFile_write (opened path openOk log)
               (snprintf 64 "[%6lld.%03lld %c] "
                  [ArgInt (Z.quot ts 1000); ArgInt (Z.rem ts 1000);
                   ArgChar (typeCharOf type)])
           end)
          (toUtf8 msg))
       newline,
     if isFatal type then Aborted else Returned).
Proof. unfold qtMsgLog, opened. destruct (function context); reflexivity. Qed.

(** Closed form of what one call appends when the file is open or can
    be opened. *)
Lemma qtMsgLog_contents (ts : Z) (log : option QFile)
    (type : QtMsgType) (context : QMessageLogContext) (msg : QString) :
  contents (fst (qtMsgLog path true ts log type context msg))
  = contentsAtEntry log
    ++ ("[" ++ fmtInt false 6 (Z.quot ts 1000) ++ "."
            ++ fmtInt true 3 (Z.rem ts 1000) ++ " "
            ++ String (typeCharOf type) "] ")
    ++ match function context with
       | Some fn => truncate 63 (fn ++ ":" ++ fmtInt false 0 (line context) ++ ": ")
       | None => EmptyString
       end
    ++ msg ++ newline.
Proof.
  rewrite qtMsgLog_writes. cbn [fst].
  destruct (opened_ok log) as [Ho Hc].
  rewrite snprintf_prefix.
  destruct (function context) as [fn|].
  - rewrite !contents_write by (rewrite ?isOpen_write; exact Ho).
    rewrite Hc. unfold snprintf, toUtf8. rewrite vformat_origin.
    change (64 - 1)%nat with 63%nat.
    rewrite !append_assoc. reflexivity.
  - rewrite !contents_write by (rewrite ?isOpen_write; exact Ho).
    rewrite Hc. unfold toUtf8.
    rewrite !append_assoc. reflexivity.
Qed.

End LogSinkFacts.

(** Claim C4, as the code has it.  A record logged [elapsed]
    milliseconds after start-up is appended to the log as: an opening
    bracket, the whole seconds right-aligned in a field of six columns, a
    dot, the three digits of the milliseconds, a blank, the severity
    character and a closing bracket and blank; then, when the context
    names a function, the first 63 bytes of function, colon, line, colon
    and blank; then the message and a line feed.  The severity characters
    are d, i, W, ! and F.  The record of 1234 ms, warning, function foo
    at line 10 and message bar is the line
    "[     1.234 W] foo:10: bar". *)
Theorem qtMsgLog_record_layout (path : QString) (log : option QFile)
    (elapsed : N) (type : QtMsgType) (context : QMessageLogContext)
    (msg : QString) :
  contents (fst (qtMsgLog path true (Z.of_N elapsed) log type context msg))
  = contentsAtEntry log
    ++ "["
    ++ replicate
         (6 - String.length (utoa 20 (Z.of_N elapsed / 1000) EmptyString)) " "
    ++ utoa 20 (Z.of_N elapsed / 1000) EmptyString
    ++ "."
    ++ String (digitChar (Z.of_N elapsed mod 1000 / 100))
         (String (digitChar (Z.of_N elapsed mod 1000 / 10 mod 10))
            (String (digitChar (Z.of_N elapsed mod 1000 mod 10)) EmptyString))
    ++ " " ++ String (typeCharOf type) "] "
    ++ match function context with
       | Some fn =>
         truncate 63 (fn ++ ":" ++ fmtInt false 0 (line context) ++ ": ")
       | None => EmptyString
       end
    ++ msg ++ newline
  /\ (typeCharOf QtDebugMsg = "d" /\ typeCharOf QtInfoMsg = "i"
      /\ typeCharOf QtWarningMsg = "W" /\ typeCharOf QtCriticalMsg = "!"
      /\ typeCharOf QtFatalMsg = "F")%char
  /\ contents (fst (qtMsgLog path true 1234 None QtWarningMsg
                      {| function := Some "foo"; line := 10 |} "bar"))
     = "[     1.234 W] foo:10: bar" ++ newline.
Proof.
  split; [|split; [repeat split|]].
  - rewrite qtMsgLog_contents.
    assert (H0 : 0 <= Z.of_N elapsed) by lia.
    rewrite Z.quot_div_nonneg, Z.rem_mod_nonneg by lia.
    rewrite fmtInt_nonneg by (apply Z.div_pos; lia).
    rewrite fmtInt_millis by (apply Z.mod_pos_bound; lia).
    f_equal.
    cbn [append]. rewrite !append_assoc. reflexivity.
  - rewrite qtMsgLog_contents. reflexivity.
Qed.

(** Claim C4, the spec's example line: with its seconds field of four
    columns it is not what the handler writes. *)
Lemma qtMsgLog_spec_example_differs :
  contents (fst (qtMsgLog "log" true 1234 None QtWarningMsg
                   {| function := Some "foo"; line := 10 |} "bar"))
  <> "[   1.234 W] foo:10: bar" ++ newline.
Proof. vm_compute. discriminate. Qed.

(** Claim C10.  The origin text (function, colon, line number, colon
    and blank) goes through a buffer of 64 bytes: when it is longer than
    63 bytes, what reaches the log is exactly its first 63 bytes, the
    rest is cut, and the message follows in full, ended by the line
    feed. *)
Theorem qtMsgLog_origin_truncated (path : QString) (log : option QFile)
    (ts : Z) (type : QtMsgType) (fn : string) (ln : Z) (msg : QString) :
  (63 < String.length (fn ++ ":" ++ fmtInt false 0 ln ++ ": "))%nat ->
  String.length (truncate 63 (fn ++ ":" ++ fmtInt false 0 ln ++ ": ")) = 63%nat
  /\ (exists cut : string,
        cut <> EmptyString
        /\ fn ++ ":" ++ fmtInt false 0 ln ++ ": "
           = truncate 63 (fn ++ ":" ++ fmtInt false 0 ln ++ ": ") ++ cut)
  /\ contents (fst (qtMsgLog path true ts log type
                      {| function := Some fn; line := ln |} msg))
     = contentsAtEntry log
       ++ snprintf 64 "[%6lld.%03lld %c] "
            [ArgInt (Z.quot ts 1000); ArgInt (Z.rem ts 1000);
             ArgChar (typeCharOf type)]
       ++ truncate 63 (fn ++ ":" ++ fmtInt false 0 ln ++ ": ")
       ++ msg ++ newline.
Proof.
  intros Hlong. split; [|split].
  - rewrite length_truncate. lia.
  - destruct (truncate_prefix 63 (fn ++ ":" ++ fmtInt false 0 ln ++ ": "))
      as (cut & E & L).
    exists cut. split; [|exact E].
    intros ->. cbn [String.length] in L. lia.
  - rewrite qtMsgLog_contents, snprintf_prefix. reflexivity.
Qed.

Lemma qtMsgLog_origin_truncated_witness :
  (63 < String.length
          ("void WaylandProcessLauncher::launch(const QString &, const QStringList &)"
             ++ ":" ++ fmtInt false 0 57 ++ ": "))%nat
  /\ String.length
       (truncate 63
          ("void WaylandProcessLauncher::launch(const QString &, const QStringList &)"
             ++ ":" ++ fmtInt false 0 57 ++ ": ")) = 63%nat.
Proof.
  split.
  - vm_compute. lia.
  - apply (qtMsgLog_origin_truncated "log" None 0 QtDebugMsg
             "void WaylandProcessLauncher::launch(const QString &, const QStringList &)"
             57 "started").
    vm_compute. lia.
Defined.

(** ** Screen names *)

Local Open Scope list_scope.

Section DisplayFacts.

Lemma foldCase_capital (lower upper : ascii) :
  capitalOf lower upper = true ->
  foldCase upper = lower /\ foldCase lower = lower.
Proof.
  unfold capitalOf, foldCase. intros H.
  apply andb_prop in H as [H Hl]. apply andb_prop in H as [H1 H2].
  apply Nat.leb_le in H1, H2. apply Nat.eqb_eq in Hl.
  split.
  - replace ((65 <=? nat_of_ascii upper)%nat && (nat_of_ascii upper <=? 90)%nat)
      with true
      by (symmetry; apply andb_true_intro; split; apply Nat.leb_le; assumption).
    rewrite <- Hl. apply ascii_nat_embedding.
  - replace (nat_of_ascii lower <=? 90)%nat with false
      by (symmetry; apply Nat.leb_gt; lia).
    rewrite andb_false_r. reflexivity.
Qed.

Lemma sameLetter_foldCase (a b : ascii) :
  sameLetter a b = true -> foldCase a = foldCase b.
Proof.
  unfold sameLetter. intros H.
  apply orb_prop in H as [H|H]; [apply orb_prop in H as [H|H]|].
  - apply Ascii.eqb_eq in H. now subst.
  - destruct (foldCase_capital a b H) as [-> ->]. reflexivity.
  - destruct (foldCase_capital b a H) as [-> ->]. reflexivity.
Qed.

(** Names that differ only in letter case compare equal. *)
Lemma differOnlyInCase_equalsCI (a b : string) :
  differOnlyInCase a b = true -> equalsCI a b = true.
Proof.
  revert b; induction a as [|x a IH]; intros [|y b] H; simpl in *;
    try discriminate; try reflexivity.
  apply andb_prop in H as [Hxy Hab].
  rewrite (sameLetter_foldCase x y Hxy), Ascii.eqb_refl. simpl.
  apply IH, Hab.
Qed.

Lemma contains_insensitive (scrNames : QStringList) (requested str : QString) :
  In requested scrNames -> equalsCI requested str = true ->
  contains scrNames str CaseInsensitive = true.
Proof.
  intros Hin Heq. unfold contains. apply existsb_exists.
  exists requested. split; assumption.
Qed.

(** The [foreach] keeps the matching screens, in their order. *)
Lemma keepScreens_filter (scrNames : QStringList) (screens keepers : list QScreen) :
  keepScreens scrNames screens keepers
  = (keepers
     ++ filter (fun scr => contains scrNames (name scr) CaseInsensitive) screens)%list.
Proof.
  revert keepers; induction screens as [|scr rest IH]; intros keepers; simpl.
  - now rewrite app_nil_r.
  - rewrite IH.
    destruct (contains scrNames (name scr) CaseInsensitive);
      [rewrite <- app_assoc|]; reflexivity.
Qed.

Lemma keepScreens_In (scrNames : QStringList) (screens : list QScreen)
    (scr : QScreen) :
  In scr (keepScreens scrNames screens [])
  <-> In scr screens /\ contains scrNames (name scr) CaseInsensitive = true.
Proof. rewrite keepScreens_filter. simpl. apply filter_In. Qed.

Lemma keepScreens_none (scrNames : QStringList) (screens : list QScreen) :
  (forall scr, In scr screens ->
               contains scrNames (name scr) CaseInsensitive = false) ->
  keepScreens scrNames screens [] = [].
Proof.
  intros Hnone. rewrite keepScreens_filter. simpl.
  induction screens as [|scr rest IH]; simpl; [reflexivity|].
  rewrite (Hnone scr) by (left; reflexivity).
  apply IH. intros scr' Hin. apply Hnone. right; exact Hin.
Qed.

End DisplayFacts.

(** ** The steps of main *)

Section EntryFacts.

Lemma withEvents_nil (w : World) : withEvents w [] = w.
Proof. destruct w; unfold withEvents; simpl; now rewrite app_nil_r. Qed.

Lemma withEvents_app (w : World) (a b : list Event) :
  withEvents (withEvents w a) b = withEvents w (a ++ b).
Proof. unfold withEvents; simpl; now rewrite app_assoc. Qed.

Lemma emit_run (e : Event) (w : World) : emit e w = (Next tt, withEvents w [e]).
Proof. reflexivity. Qed.

Lemma forEach_emit {A} (f : A -> Event) (l : list A) (w : World) :
  forEach l (fun a => emit (f a)) w = (Next tt, withEvents w (map f l)).
Proof.
  revert w; induction l as [|a l IH]; intros w; simpl.
  - now rewrite withEvents_nil.
  - unfold bind at 1. rewrite emit_run, IH, withEvents_app. reflexivity.
Qed.

Lemma assignments_app (a b : list Event) :
  assignments (a ++ b) = assignments a ++ assignments b.
Proof.
  induction a as [|e a IH]; simpl; [reflexivity|].
  destruct e; simpl; now rewrite IH.
Qed.

Lemma assignments_callsFor (windowed : bool) (pairs : list (QWindowPtr * QScreen)) :
  assignments (flat_map (callsFor windowed) pairs) = pairs.
Proof.
  induction pairs as [|[window screen] rest IH]; simpl; [reflexivity|].
  destruct windowed; simpl; now rewrite IH.
Qed.

(** The loop as a whole: one pass of the body for each pair of the
    two sequences zipped, and no early exit. *)
Lemma windowLoop_run (windowed : bool) (windows : list QWindowPtr)
    (screens : list QScreen) (w : World) :
  windowLoop windowed windows screens w
  = (Next tt,
     {| globals := globals w; assigned := assigned w; sigState := sigState w;
        heap := fold_left (place windowed) (combine windows screens) (heap w);
        events := events w
                  ++ flat_map (callsFor windowed) (combine windows screens) |}).
Proof.
  revert screens w; induction windows as [|window windows IH];
    intros [|screen screens] w; simpl;
    try (destruct w; simpl; now rewrite app_nil_r).
  destruct windowed; unfold bind, onHeap, emit; simpl; rewrite IH; simpl;
    rewrite <- !app_assoc; reflexivity.
Qed.

End EntryFacts.

(** ** Window placement *)

Section PlacementFacts.

Variable windowed : bool.

Lemma place_other (h : Heap) (window : QWindowPtr) (screen : QScreen)
    (q : QWindowPtr) :
  q <> window -> place windowed h (window, screen) q = h q.
Proof.
  intros Hq. apply Nat.eqb_neq in Hq.
  unfold place, showNormal, showFullScreen, setGeometry, setScreen, store.
  destruct windowed; rewrite Hq; reflexivity.
Qed.

Lemma place_self (h : Heap) (window : QWindowPtr) (screen : QScreen) :
  place windowed h (window, screen) window
  = {| win_screen := Some screen;
       win_geometry := if windowed then win_geometry (h window)
                       else geometry screen;
       win_visibility := if windowed then Windowed else FullScreen |}.
Proof.
  unfold place, showNormal, showFullScreen, setGeometry, setScreen, store.
  destruct windowed; rewrite !Nat.eqb_refl; reflexivity.
Qed.

Lemma fold_place_untouched (pairs : list (QWindowPtr * QScreen)) (h : Heap)
    (q : QWindowPtr) :
  ~ In q (map fst pairs) -> fold_left (place windowed) pairs h q = h q.
Proof.
  revert h; induction pairs as [|[window screen] rest IH]; intros h Hq;
    cbn [fold_left].
  - reflexivity.
  - simpl in Hq. rewrite IH by tauto. apply place_other. intros ->; tauto.
Qed.

Lemma In_fst_combine {A B} (l : list A) (l' : list B) (a : A) :
  In a (map fst (combine l l')) -> In a (firstn (List.length l') l).
Proof.
  revert l'; induction l as [|x l IH]; intros [|y l'] H; simpl in *; try tauto.
  destruct H as [H|H]; [left; exact H | right; apply IH, H].
Qed.

Lemma In_firstn {A} (n : nat) (l : list A) (a : A) :
  In a (firstn n l) -> In a l.
Proof.
  revert n; induction l as [|x l IH]; intros [|n] H; simpl in *; try tauto.
  destruct H as [H|H]; [left; exact H | right; exact (IH n H)].
Qed.

(** With distinct windows, the window of the i-th pair ends as its own
    pass of the loop body leaves it. *)
Lemma fold_place_nth (windows : list QWindowPtr) (screens : list QScreen)
    (h : Heap) (i : nat) (window : QWindowPtr) (screen : QScreen) :
  NoDup windows ->
  nth_error windows i = Some window ->
  nth_error screens i = Some screen ->
  fold_left (place windowed) (combine windows screens) h window
  = place windowed h (window, screen) window.
Proof.
  revert screens h i; induction windows as [|w0 windows IH];
    intros screens h i Hnd Hw Hs.
  - destruct i; discriminate.
  - destruct screens as [|s0 screens]; [destruct i; discriminate|].
    inversion Hnd as [|? ? Hnotin Hnd']; subst.
    destruct i as [|i]; simpl in Hw, Hs.
    + injection Hw as ->. injection Hs as ->. cbn [combine fold_left].
      apply fold_place_untouched.
      intros Hin. apply In_fst_combine, In_firstn in Hin. contradiction.
    + cbn [combine fold_left]. rewrite (IH screens _ i Hnd' Hw Hs).
      assert (Hne : window <> w0)
        by (intros ->; apply Hnotin; eapply nth_error_In; eassumption).
      rewrite !place_self, place_other by exact Hne. reflexivity.
Qed.

End PlacementFacts.

(** ** The parts of main *)

Section MainFacts.

Variable env : Env.
Variable opts : Options.

Lemma callSetupSignalHandler_run (w : World) :
  callSetupSignalHandler (os env) w
  = (Next tt,
     {| globals :=
          {| grefsonExecutablePath := grefsonExecutablePath (globals w);
             grefsonPID := grefsonPID (globals w);
             signalHandlerStack :=
               fst (fst (setupSignalHandler (os env) (sigState w)));
             logFilePath := logFilePath (globals w);
             grefsenConfigDirPath := grefsenConfigDirPath (globals w) |};
        assigned := assigned w ++ [Var_signalHandlerStack];
        sigState := snd (fst (setupSignalHandler (os env) (sigState w)));
        heap := heap w;
        events := events w
                  ++ map SetupWarned
                       (snd (setupSignalHandler (os env) (sigState w))) |}).
Proof.
  unfold callSetupSignalHandler.
  destruct (setupSignalHandler (os env) (sigState w)) as [[ss_sp st'] warnings].
  unfold bind at 1. cbn [assign_signalHandlerStack bind getGlobals setGlobals].
  rewrite forEach_emit. reflexivity.
Qed.

Lemma selectScreens_run (screens : list QScreen) (w : World) :
  selectScreens opts screens w
  = match screenOption opts with
    | None => (Next screens, w)
    | Some scrNames =>
      match keepScreens scrNames screens [] with
      | [] =>
        (Leave (-1),
         withEvents w
           (WarnedNoScreens scrNames
              :: map (fun scr => WarnedAvailable (name scr) (geometry scr))
                     screens))
      | keepers => (Next keepers, w)
      end
    end.
Proof.
  unfold selectScreens.
  destruct (screenOption opts) as [scrNames|]; [|reflexivity].
  destruct (keepScreens scrNames screens []) as [|k keepers]; [|reflexivity].
  unfold bind at 1. rewrite emit_run.
  unfold bind at 1.
  rewrite (forEach_emit (fun scr => WarnedAvailable (name scr) (geometry scr))).
  rewrite withEvents_app. reflexivity.
Qed.

Lemma placeAndRun_run (screens : list QScreen) (w : World) :
  placeAndRun env opts screens w
  = (Next (execResult env),
     {| globals := globals w; assigned := assigned w; sigState := sigState w;
        heap := fold_left (place (windowOption opts))
                  (combine (childWindows env) screens) (heap w);
        events := events w
                  ++ map DebugScreen screens
                  ++ [FullscreenAllowedSet (negb (windowOption opts))]
                  ++ flat_map (callsFor (windowOption opts))
                       (combine (childWindows env) screens)
                  ++ [EventLoopEntered] |}).
Proof.
  unfold placeAndRun, screenCheck.
  replace (if windowOption opts then true else false) with (windowOption opts)
    by (destruct (windowOption opts); reflexivity).
  unfold bind at 1. rewrite (forEach_emit DebugScreen).
  unfold bind at 1. rewrite emit_run.
  unfold bind at 1. rewrite windowLoop_run.
  unfold bind at 1. rewrite emit_run.
  unfold pure, withEvents. cbn [globals assigned sigState heap events].
  rewrite <- !app_assoc. reflexivity.
Qed.

Lemma startup_warnings (ws : list SetupWarning) (rest : list Event) :
  forallb isStartupEvent (map SetupWarned ws ++ rest)
  = forallb isStartupEvent rest.
Proof. induction ws as [|x ws IH]; simpl; auto. Qed.

Lemma startup_warnings_only (ws : list SetupWarning) :
  forallb isStartupEvent (map SetupWarned ws) = true.
Proof. induction ws as [|x ws IH]; simpl; auto. Qed.

(** Lines 182-224 never leave main; they record the identity first,
    write it no second time, and touch no window. *)
Lemma captureAndConfigure_run (w : World) :
  exists (w1 : World) (vars : list GlobalVar) (evs : list Event),
    captureAndConfigure env opts w = (Next tt, w1)
    /\ heap w1 = heap w
    /\ grefsonExecutablePath (globals w1) = toLocal8Bit (applicationFilePath env)
    /\ grefsonPID (globals w1) = applicationPid env
    /\ assigned w1
       = assigned w ++ Var_grefsonExecutablePath :: Var_grefsonPID :: vars
    /\ existsb isIdentityVar vars = false
    /\ events w1 = events w ++ evs
    /\ forallb isStartupEvent evs = true.
Proof.
  unfold captureAndConfigure.
  unfold bind at 1. cbn [assign_grefsonExecutablePath bind getGlobals setGlobals].
  unfold bind at 1. cbn [assign_grefsonPID bind getGlobals setGlobals
                         globals assigned sigState heap events
                         grefsonExecutablePath grefsonPID signalHandlerStack
                         logFilePath grefsenConfigDirPath].
  destruct (respawnOption opts).
  - unfold bind at 1. rewrite callSetupSignalHandler_run.
    cbn [globals assigned sigState heap events
         grefsonExecutablePath grefsonPID signalHandlerStack
         logFilePath grefsenConfigDirPath].
    destruct (configDirOption opts), (logFileOption opts);
      cbn; eexists _, _, _;
      (split; [reflexivity|]); cbn;
      repeat split; rewrite <- ?app_assoc; cbn [app];
      first [ reflexivity
            | rewrite startup_warnings; reflexivity
            | apply startup_warnings_only ].
  - destruct (configDirOption opts), (logFileOption opts);
      cbn; eexists _, _, _;
      (split; [reflexivity|]); cbn;
      repeat split; rewrite <- ?app_assoc; cbn [app];
      first [ reflexivity
            | instantiate (1 := []); rewrite app_nil_r; reflexivity ].
Qed.

Lemma main_run (w : World) :
  exists (w1 : World) (vars : list GlobalVar) (evs : list Event),
    main env opts w
    = match selectScreens opts (allScreens env) w1 with
      | (Next screens, w2) => placeAndRun env opts screens w2
      | (Leave code, w2) => (Leave code, w2)
      end
    /\ heap w1 = heap w
    /\ grefsonExecutablePath (globals w1) = toLocal8Bit (applicationFilePath env)
    /\ grefsonPID (globals w1) = applicationPid env
    /\ assigned w1
       = assigned w ++ Var_grefsonExecutablePath :: Var_grefsonPID :: vars
    /\ existsb isIdentityVar vars = false
    /\ events w1 = events w ++ evs
    /\ forallb isStartupEvent evs = true.
Proof.
  destruct (captureAndConfigure_run w) as (w1 & vars & evs & Hrun & Hrest).
  exists w1, vars, evs. split; [|exact Hrest].
  unfold main, bind. rewrite Hrun.
  destruct (selectScreens opts (allScreens env) w1) as [[screens|code] w2];
    reflexivity.
Qed.

Lemma startup_no_window_call (evs : list Event) :
  forallb isStartupEvent evs = true -> existsb isWindowCall evs = false.
Proof.
  induction evs as [|e evs IH]; simpl; [reflexivity|].
  intros H. apply andb_prop in H as [He Hevs].
  rewrite (IH Hevs). destruct e; try discriminate; reflexivity.
Qed.

Lemma startup_no_event_loop (evs : list Event) :
  forallb isStartupEvent evs = true -> ~ In EventLoopEntered evs.
Proof.
  induction evs as [|e evs IH]; simpl; [tauto|].
  intros H. apply andb_prop in H as [He Hevs].
  intros [->|Hin]; [discriminate | exact (IH Hevs Hin)].
Qed.

Lemma no_window_call_no_assignment (evs : list Event) :
  existsb isWindowCall evs = false -> assignments evs = [].
Proof.
  induction evs as [|e evs IH]; simpl; [reflexivity|].
  intros H. apply orb_false_elim in H as [He Hevs].
  destruct e; try discriminate; exact (IH Hevs).
Qed.

Lemma available_no_window_call (screens : list QScreen) :
  existsb isWindowCall
    (map (fun scr => WarnedAvailable (name scr) (geometry scr)) screens) = false.
Proof. induction screens as [|scr rest IH]; simpl; auto. Qed.

Lemma debug_no_window_call (screens : list QScreen) :
  existsb isWindowCall (map DebugScreen screens) = false.
Proof. induction screens as [|scr rest IH]; simpl; auto. Qed.

End MainFacts.

(** ** The claims about screens and windows *)

Lemma nth_error_combine {A B} (l : list A) (l' : list B) (i : nat) :
  nth_error (combine l l') i
  = match nth_error l i, nth_error l' i with
    | Some a, Some b => Some (a, b)
    | _, _ => None
    end.
Proof.
  revert l' i; induction l as [|a l IH]; intros [|b l'] [|i]; simpl;
    try reflexivity.
  - destruct (nth_error l i); reflexivity.
  - apply IH.
Qed.

(** Claim C1.  Whatever the mode, the loop never leaves main and makes
    exactly the calls of one pass per pair of the two sequences zipped:
    the pairs it assigns, read off its [setScreen] calls in order, are
    the i-th window with the i-th screen for every i below both lengths,
    min(|W|,|D|) pairs in all, the same pairs windowed and fullscreen; a
    window beyond them is left as it was.  For main as a whole the pairs
    are the child windows zipped with the selected screens. *)
Theorem windowLoop_pairs_positionally (windowed : bool)
    (W : list QWindowPtr) (D : list QScreen) (w : World) :
  fst (windowLoop windowed W D w) = Next tt
  /\ events (snd (windowLoop windowed W D w))
     = events w ++ flat_map (callsFor windowed) (combine W D)
  /\ assignments (events (snd (windowLoop windowed W D w)))
     = assignments (events w) ++ combine W D
  /\ List.length (combine W D) = Nat.min (List.length W) (List.length D)
  /\ (forall i : nat,
        nth_error (combine W D) i
        = match nth_error W i, nth_error D i with
          | Some window, Some screen => Some (window, screen)
          | _, _ => None
          end)
  /\ assignments (events (snd (windowLoop true W D w)))
     = assignments (events (snd (windowLoop false W D w)))
  /\ (forall q : QWindowPtr,
        In q (firstn (List.length D) W)
        \/ heap (snd (windowLoop windowed W D w)) q = heap w q)
  /\ (forall (env : Env) (opts : Options) (h : Heap),
        assignments (events (snd (main env opts (initialWorld env h))))
        = combine (childWindows env)
            (match screenOption opts with
             | Some scrNames => keepScreens scrNames (allScreens env) []
             | None => allScreens env
             end)).
Proof.
  rewrite !windowLoop_run. cbn [fst snd events heap].
  repeat split.
  - now rewrite assignments_app, assignments_callsFor.
  - apply length_combine.
  - intros i. apply nth_error_combine.
  - now rewrite !assignments_app, !assignments_callsFor.
  - intros q.
    destruct (in_dec Nat.eq_dec q (firstn (List.length D) W)) as [Hin|Hout];
      [left; exact Hin | right].
    apply fold_place_untouched. intros Hin. apply Hout.
    apply In_fst_combine, Hin.
  - intros env opts h.
    destruct (main_run env opts (initialWorld env h))
      as (w1 & vars & evs & -> & _ & _ & _ & _ & _ & Hev & Hstart).
    cbn [initialWorld events app] in Hev.
    apply startup_no_window_call, no_window_call_no_assignment in Hstart.
    rewrite selectScreens_run.
    destruct (screenOption opts) as [scrNames|].
    + destruct (keepScreens scrNames (allScreens env) []) as [|k keepers].
      * cbn [snd withEvents events]. rewrite Hev, assignments_app, Hstart.
        cbn [app assignments].
        rewrite (no_window_call_no_assignment _
                   (available_no_window_call (allScreens env))).
        now rewrite combine_nil.
      * rewrite placeAndRun_run. cbn [snd events].
        rewrite Hev, !assignments_app, Hstart, assignments_callsFor.
        rewrite (no_window_call_no_assignment _ (debug_no_window_call _)).
        cbn. now rewrite app_nil_r.
    + rewrite placeAndRun_run. cbn [snd events].
      rewrite Hev, !assignments_app, Hstart, assignments_callsFor.
      rewrite (no_window_call_no_assignment _ (debug_no_window_call _)).
      cbn. now rewrite app_nil_r.
Qed.

(** Claim C5, as the code has it.  The windows of the scene being
    distinct objects, the window of every assigned pair ends on the
    screen of the pair; in windowed mode it is shown in normal state with
    the geometry it had (size and position are left alone); in
    fullscreen mode its geometry is the geometry of the screen and it is
    shown in fullscreen state. *)
Theorem windowLoop_placement (windowed : bool)
    (W : list QWindowPtr) (D : list QScreen) (w : World)
    (i : nat) (window : QWindowPtr) (screen : QScreen) :
  NoDup W ->
  nth_error W i = Some window ->
  nth_error D i = Some screen ->
  heap (snd (windowLoop windowed W D w)) window
  = {| win_screen := Some screen;
       win_geometry := if windowed then win_geometry (heap w window)
                       else geometry screen;
       win_visibility := if windowed then Windowed else FullScreen |}.
Proof.
  intros Hnd Hw Hs. rewrite windowLoop_run. cbn [snd heap].
  rewrite (fold_place_nth windowed W D (heap w) i window screen Hnd Hw Hs).
  apply place_self.
Qed.

Lemma windowLoop_placement_witness :
  NoDup [1%nat; 2%nat]
  /\ nth_error [1%nat; 2%nat] 1 = Some 2%nat
  /\ nth_error [screenLeft; screenRight] 1 = Some screenRight
  /\ heap (snd (windowLoop false [1%nat; 2%nat] [screenLeft; screenRight]
                  (initialWorld sampleEnv sceneHeap))) 2%nat
     = {| win_screen := Some screenRight;
          win_geometry := geometry screenRight;
          win_visibility := FullScreen |}.
Proof.
  assert (Hnd : NoDup [1%nat; 2%nat]).
  { constructor; [simpl; intros [H|[]]; discriminate|].
    constructor; [simpl; tauto | constructor]. }
  split; [exact Hnd|]. split; [reflexivity|]. split; [reflexivity|].
  exact (windowLoop_placement false [1%nat; 2%nat] [screenLeft; screenRight]
           (initialWorld sampleEnv sceneHeap) 1 2%nat screenRight
           Hnd eq_refl eq_refl).
Defined.

(** Claim C5, as the spec words it for windowed mode: a window assigned
    to the right-hand screen stays where the scene put it, which is not
    the origin of that screen. *)
Lemma windowed_window_not_at_screen_origin :
  nth_error (assignments
               (events (snd (windowLoop true [1%nat; 2%nat]
                               [screenLeft; screenRight]
                               (initialWorld sampleEnv sceneHeap))))) 1
  = Some (2%nat, screenRight)
  /\ ~ atOriginOf
         (heap (snd (windowLoop true [1%nat; 2%nat] [screenLeft; screenRight]
                       (initialWorld sampleEnv sceneHeap))) 2%nat)
         screenRight.
Proof.
  split; [reflexivity|].
  unfold atOriginOf. vm_compute. discriminate.
Qed.

(** Claim C3.  When [-s] names are given and no screen of the system
    matches any of them, the filter keeps nothing and main returns -1,
    an exit status of 255: after the start-up events it has only warned
    that none of the screens exist and listed the available ones; it has
    called no window, changed no window and not entered the event
    loop. *)
Theorem main_refuses_unknown_screens (env : Env) (opts : Options) (h : Heap)
    (scrNames : QStringList) :
  screenOption opts = Some scrNames ->
  (forall scr, In scr (allScreens env) ->
               contains scrNames (name scr) CaseInsensitive = false) ->
  keepScreens scrNames (allScreens env) [] = []
  /\ fst (main env opts (initialWorld env h)) = Leave (-1)
  /\ exitStatus (-1) = 255
  /\ (exists startup : list Event,
        forallb isStartupEvent startup = true
        /\ events (snd (main env opts (initialWorld env h)))
           = startup
             ++ WarnedNoScreens scrNames
             :: map (fun scr => WarnedAvailable (name scr) (geometry scr))
                    (allScreens env))
  /\ existsb isWindowCall (events (snd (main env opts (initialWorld env h))))
     = false
  /\ ~ In EventLoopEntered (events (snd (main env opts (initialWorld env h))))
  /\ heap (snd (main env opts (initialWorld env h))) = h.
Proof.
  intros Hopt Hnone.
  pose proof (keepScreens_none scrNames (allScreens env) Hnone) as Hkeep.
  destruct (main_run env opts (initialWorld env h))
    as (w1 & vars & evs & -> & Hheap & _ & _ & _ & _ & Hev & Hstart).
  cbn [initialWorld events heap app] in Hev, Hheap.
  rewrite selectScreens_run, Hopt, Hkeep. cbn [fst snd withEvents events heap].
  rewrite Hev.
  split; [reflexivity|]. split; [reflexivity|]. split; [reflexivity|].
  split; [exists evs; split; [exact Hstart | reflexivity]|].
  split; [|split; [|exact Hheap]].
  - rewrite existsb_app, (startup_no_window_call evs Hstart). cbn.
    apply available_no_window_call.
  - intros Hin. apply in_app_or in Hin as [Hin|[Hin|Hin]].
    + exact (startup_no_event_loop evs Hstart Hin).
    + discriminate.
    + apply in_map_iff in Hin as (scr & Hscr & _). discriminate.
Qed.

Lemma main_refuses_unknown_screens_witness :
  (forall scr, In scr (allScreens sampleEnv) ->
               contains ["nonexistent"] (name scr) CaseInsensitive = false)
  /\ keepScreens ["nonexistent"] [screenLeft; screenRight] [] = []
  /\ fst (main sampleEnv
            {| respawnOption := true; logFileOption := None;
               configDirOption := None; screenOption := Some ["nonexistent"];
               windowOption := false |}
            (initialWorld sampleEnv sceneHeap)) = Leave (-1).
Proof.
  assert (Hnone : forall scr, In scr (allScreens sampleEnv) ->
            contains ["nonexistent"] (name scr) CaseInsensitive = false).
  { intros scr [<-|[<-|[]]]; reflexivity. }
  split; [exact Hnone|].
  pose proof (main_refuses_unknown_screens sampleEnv
                {| respawnOption := true; logFileOption := None;
                   configDirOption := None;
                   screenOption := Some ["nonexistent"];
                   windowOption := false |}
                sceneHeap ["nonexistent"] eq_refl Hnone) as H.
  split; [exact (proj1 H) | exact (proj1 (proj2 H))].
Defined.

(** ** CrashGuard *)

(** Claim C8.  The first thing main writes is the executable path (then
    the pid), from the application's file path; nothing in main writes
    either of them again, whatever the options and however main ends.
    With the globals main leaves, the child branch of the handler calls
    [execl] on exactly that path, with the path as argv[0] and no
    argument after it. *)
Theorem respawn_execs_recorded_path (env : Env) (opts : Options) (h : Heap)
    (signal : Z) (execOk : bool) :
  grefsonExecutablePath (globals (snd (main env opts (initialWorld env h))))
  = toLocal8Bit (applicationFilePath env)
  /\ grefsonPID (globals (snd (main env opts (initialWorld env h))))
     = applicationPid env
  /\ (exists later : list GlobalVar,
        assigned (snd (main env opts (initialWorld env h)))
        = Var_grefsonExecutablePath :: Var_grefsonPID :: later
        /\ existsb isIdentityVar later = false)
  /\ (exists notice : string,
        fst (signalHandler
               (globals (snd (main env opts (initialWorld env h))))
               signal 0 execOk)
        = [Fork; Kill (applicationPid env) 9; WriteStderr notice;
           Execl (toLocal8Bit (applicationFilePath env))
                 [toLocal8Bit (applicationFilePath env)]]
          ++ (if execOk then [] else [Exit_ EXIT_FAILURE]))
  /\ snd (signalHandler
            (globals (snd (main env opts (initialWorld env h))))
            signal 0 true)
     = ImageReplaced (toLocal8Bit (applicationFilePath env))
                     [toLocal8Bit (applicationFilePath env)].
Proof.
  destruct (main_run env opts (initialWorld env h))
    as (w1 & vars & evs & Hmain & _ & Hpath & Hpid & Hass & Hvars & _ & _).
  cbn [initialWorld assigned app] in Hass.
  assert (Hg : globals (snd (main env opts (initialWorld env h))) = globals w1
               /\ assigned (snd (main env opts (initialWorld env h)))
                  = assigned w1).
  { rewrite Hmain, selectScreens_run.
    destruct (screenOption opts) as [scrNames|];
      [destruct (keepScreens scrNames (allScreens env) [])|];
      rewrite ?placeAndRun_run; split; reflexivity. }
  destruct Hg as [-> ->].
  split; [exact Hpath|]. split; [exact Hpid|].
  split; [exists vars; split; assumption|].
  unfold signalHandler, constData. cbn [Z.eqb]. rewrite Hpath, Hpid.
  split; [|reflexivity].
  eexists. destruct execOk; reflexivity.
Qed.

Section CrashGuardFacts.

Variable os : OS.

Lemma installLoop_frame (sa : sigaction_t) (arr : list Z) (st : SigState) :
  blocked (fst (installLoop os sa arr st)) = blocked st
  /\ altstack (fst (installLoop os sa arr st)) = altstack st.
Proof.
  revert st; induction arr as [|sig rest IH]; intros st; simpl; [auto|].
  destruct (sig =? 0); [auto|].
  destruct (sigaction_ok os sig).
  - destruct (IH (setAction st sig sa)) as [Hb Ha]. now rewrite Hb, Ha.
  - destruct (installLoop os sa rest st) as [st' ws] eqn:E.
    specialize (IH st). rewrite E in IH. exact IH.
Qed.

(** After the loop, a signal has the new action exactly when it stands
    in the array before the terminator and [sigaction] accepted it. *)
Lemma installLoop_actions (sa : sigaction_t) (arr : list Z) (st : SigState)
    (s : Z) :
  actions (fst (installLoop os sa arr st)) s
  = if existsb (Z.eqb s) (untilZero arr) && sigaction_ok os s
    then sa else actions st s.
Proof.
  revert st; induction arr as [|sig rest IH]; intros st; simpl; [reflexivity|].
  destruct (sig =? 0); [reflexivity|].
  simpl. destruct (sigaction_ok os sig) eqn:Hok.
  - rewrite IH. simpl.
    destruct (Z.eqb_spec s sig) as [->|Hne]; simpl.
    + rewrite Hok.
      now destruct (existsb (Z.eqb sig) (untilZero rest)).
    + reflexivity.
  - destruct (installLoop os sa rest st) as [st' ws] eqn:E.
    specialize (IH st). rewrite E in IH. simpl in *. rewrite IH.
    destruct (Z.eqb_spec s sig) as [->|Hne]; simpl; [|reflexivity].
    rewrite Hok, andb_false_r. reflexivity.
Qed.

(** Every action [setupSignalHandler] leaves is the one the state had
    or the crash action, the latter on fatal signals only. *)
Lemma setupSignalHandler_actions (st : SigState) (s : Z) :
  actions (snd (fst (setupSignalHandler os st))) s = actions st s
  \/ (actions (snd (fst (setupSignalHandler os st))) s = crashAction
      /\ In s fatalSignals).
Proof.
  unfold setupSignalHandler.
  destruct (malloc os SIGSTKSZ) as [sp|]; [|left; reflexivity].
  destruct (sigaltstack_ok os); [|left; reflexivity].
  destruct (sigemptyset_ok os); [|left; reflexivity].
  cbn [negb].
  match goal with
  | |- context [installLoop os ?sa ?arr ?st0] =>
    pose proof (installLoop_actions sa arr st0 s) as Hact;
    destruct (installLoop os sa arr st0) as [st' ws]
  end.
  cbn [fst snd] in *. rewrite Hact.
  destruct (existsb (Z.eqb s) _ && sigaction_ok os s) eqn:E;
    [right | left; reflexivity].
  split; [reflexivity|].
  apply andb_prop in E as [E _]. apply existsb_exists in E as (x & Hx & Hsx).
  apply Z.eqb_eq in Hsx. subst x. exact Hx.
Qed.

Lemma setupSignalHandler_installs (st : SigState) (sp : Z) (sig : Z) :
  malloc os SIGSTKSZ = Some sp ->
  sigaltstack_ok os = true ->
  sigemptyset_ok os = true ->
  sigaction_ok os sig = true ->
  In sig fatalSignals ->
  actions (snd (fst (setupSignalHandler os st))) sig = crashAction
  /\ blocked (snd (fst (setupSignalHandler os st))) = blocked st
  /\ altstack (snd (fst (setupSignalHandler os st))) = Some sp.
Proof.
  intros Hm Hs He Hok Hin. unfold setupSignalHandler.
  rewrite Hm, Hs, He. cbn [negb].
  match goal with
  | |- context [installLoop os ?sa ?arr ?st0] =>
    pose proof (installLoop_actions sa arr st0 sig) as Hact;
    pose proof (installLoop_frame sa arr st0) as [Hb Ha];
    destruct (installLoop os sa arr st0) as [st' ws]
  end.
  cbn [fst snd] in *. rewrite Hact, Hb, Ha, Hok, andb_true_r.
  replace (existsb (Z.eqb sig) _) with true; [auto|].
  symmetry. apply existsb_exists. exists sig.
  split; [exact Hin | apply Z.eqb_refl].
Qed.

Lemma filter_length_drop (f g : Z -> bool) (L : list Z) (s : Z) :
  NoDup L -> In s L -> f s = true ->
  (forall x, g x = if x =? s then false else f x) ->
  S (List.length (filter g L)) = List.length (filter f L).
Proof.
  intros Hnd Hin Hfs Hg. induction L as [|x L IH]; [contradiction|].
  inversion Hnd as [|? ? Hx HndL]; subst. simpl.
  destruct Hin as [->|Hin].
  - rewrite Hfs, Hg, Z.eqb_refl. simpl. f_equal. f_equal.
    apply filter_ext_in. intros y Hy. rewrite Hg.
    destruct (Z.eqb_spec y s) as [->|_]; [contradiction | reflexivity].
  - rewrite Hg.
    destruct (Z.eqb_spec x s) as [->|_]; [contradiction|].
    destruct (f x); simpl; rewrite <- (IH HndL Hin); reflexivity.
Qed.

(** Entering the handler disarms the signal that entered it, when the
    handlers in place are on fatal signals and carry [SA_RESETHAND]. *)
Lemma deliver_disarms (st st' : SigState) (s : Z) (onAlt : bool) :
  (forall x, isHandled st x = true ->
             In x fatalSignals
             /\ hasFlag (sa_flags (actions st x)) SA_RESETHAND = true) ->
  deliver st s = EntersHandler st' onAlt ->
  In s fatalSignals /\ isHandled st s = true
  /\ forall x, actions st' x = if x =? s then defaultAction else actions st x.
Proof.
  intros Hwell. unfold deliver.
  destruct (isBlocked st s); [discriminate|].
  destruct (sa_handler (actions st s)) eqn:Hh; [discriminate|].
  assert (Hs : isHandled st s = true) by (unfold isHandled; now rewrite Hh).
  destruct (Hwell s Hs) as [Hin Hflag]. rewrite Hflag.
  intros [= <- _]. auto.
Qed.

(** The three flags of the crash action, and delivery under it. *)
Lemma crashAction_flags :
  hasFlag (sa_flags crashAction) SA_RESETHAND = true
  /\ hasFlag (sa_flags crashAction) SA_NODEFER = true
  /\ hasFlag (sa_flags crashAction) SA_ONSTACK = true.
Proof. repeat split; reflexivity. Qed.

Lemma deliver_crashAction (st : SigState) (sig : Z) :
  isBlocked st sig = false ->
  actions st sig = crashAction ->
  deliver st sig
  = EntersHandler
      {| actions := actions (setAction st sig defaultAction);
         blocked := blocked st;
         altstack := altstack st |}
      (match altstack st with Some _ => true | None => false end).
Proof.
  intros Hnb Hact. unfold deliver. rewrite Hnb, Hact.
  destruct crashAction_flags as (-> & -> & ->). reflexivity.
Qed.

Lemma fatalSignals_NoDup : NoDup fatalSignals.
Proof.
  unfold fatalSignals, SIGILL, SIGABRT, SIGFPE, SIGSEGV, SIGBUS.
  repeat (constructor; [simpl; intros H; decompose [or] H; lia|]).
  constructor.
Qed.

(** However faults follow one another, the handler is entered at most
    once for each armed signal. *)
Lemma handlerEntries_bound (faults : list Z) (st : SigState) :
  (forall x, isHandled st x = true ->
             In x fatalSignals
             /\ hasFlag (sa_flags (actions st x)) SA_RESETHAND = true) ->
  (handlerEntries st faults <= List.length (armed st))%nat.
Proof.
  revert st; induction faults as [|s rest IH]; intros st Hwell; simpl; [lia|].
  destruct (deliver st s) as [| |st' onAlt] eqn:Hd; try lia.
  destruct (deliver_disarms st st' s onAlt Hwell Hd) as (Hin & Hs & Hact).
  assert (Hh : forall x, isHandled st' x
                         = if x =? s then false else isHandled st x).
  { intros x. unfold isHandled. rewrite Hact.
    destruct (x =? s); reflexivity. }
  assert (Hwell' : forall x, isHandled st' x = true ->
             In x fatalSignals
             /\ hasFlag (sa_flags (actions st' x)) SA_RESETHAND = true).
  { intros x Hx. rewrite Hh in Hx. rewrite Hact.
    destruct (x =? s); [discriminate | exact (Hwell x Hx)]. }
  specialize (IH st' Hwell').
  pose proof (filter_length_drop (isHandled st) (isHandled st') fatalSignals s
                fatalSignals_NoDup Hin Hs Hh) as Hlen.
  unfold armed in *. lia.
Qed.

Lemma armed_at_most_five (st : SigState) : (List.length (armed st) <= 5)%nat.
Proof. unfold armed. apply (filter_length_le (isHandled st) fatalSignals). Qed.

End CrashGuardFacts.

(** Claim C6.  Where the handler has been installed for a fatal signal
    that is not blocked, delivery of the signal enters the handler, on
    the alternate stack, in a state where the action of that signal is
    the default again and the signal is still not blocked; the same
    signal raised inside the handler then takes the default action,
    which ends the process, and the handler has been entered once.
    From process start, whatever the operating system answered during
    installation and whichever faults follow one another, the handler is
    entered at most five times, once per fatal signal. *)
Theorem crash_handler_disarmed_on_entry (os : OS) (st : SigState) (sp : Z)
    (sig : Z) (faults : list Z) :
  malloc os SIGSTKSZ = Some sp ->
  sigaltstack_ok os = true ->
  sigemptyset_ok os = true ->
  sigaction_ok os sig = true ->
  In sig fatalSignals ->
  isBlocked st sig = false ->
  (exists st2 : SigState,
      deliver (snd (fst (setupSignalHandler os st))) sig = EntersHandler st2 true
      /\ actions st2 sig = defaultAction
      /\ isBlocked st2 sig = false
      /\ deliver st2 sig = DefaultTermination sig)
  /\ handlerEntries (snd (fst (setupSignalHandler os st))) (sig :: sig :: faults)
     = 1%nat
  /\ (handlerEntries (snd (fst (setupSignalHandler os initialSigState))) faults
      <= 5)%nat.
Proof.
  intros Hm Hs He Hok Hin Hnb.
  destruct (setupSignalHandler_installs os st sp sig Hm Hs He Hok Hin)
    as (Hact & Hb & Ha).
  set (st1 := snd (fst (setupSignalHandler os st))) in *.
  assert (Hnb1 : isBlocked st1 sig = false)
    by (unfold isBlocked; rewrite Hb; exact Hnb).
  pose proof (deliver_crashAction st1 sig Hnb1 Hact) as Hd.
  rewrite Ha in Hd.
  assert (Hd2 : deliver
                  {| actions := actions (setAction st1 sig defaultAction);
                     blocked := blocked st1;
                     altstack := Some sp |} sig
                = DefaultTermination sig).
  { unfold deliver, isBlocked in *. cbn [blocked actions setAction].
    rewrite Hnb1, Z.eqb_refl. reflexivity. }
  split; [|split].
  - eexists. split; [exact Hd|]. split; [|split; [|exact Hd2]].
    + cbn [actions setAction]. now rewrite Z.eqb_refl.
    + exact Hnb1.
  - cbn [handlerEntries]. rewrite Hd, Hd2. reflexivity.
  - etransitivity; [apply handlerEntries_bound | apply armed_at_most_five].
    intros x Hx. unfold isHandled in Hx.
    destruct (setupSignalHandler_actions os initialSigState x) as [E|[E Hinx]];
      rewrite E in *; [discriminate | split; [exact Hinx | reflexivity]].
Qed.

Lemma crash_handler_disarmed_on_entry_witness :
  In SIGSEGV fatalSignals
  /\ handlerEntries
       (snd (fst (setupSignalHandler (Entry.os sampleEnv) initialSigState)))
       [SIGSEGV; SIGSEGV; SIGSEGV] = 1%nat.
Proof.
  assert (Hin : In SIGSEGV fatalSignals) by (simpl; tauto).
  split; [exact Hin|].
  exact (proj1 (proj2
    (crash_handler_disarmed_on_entry (Entry.os sampleEnv) initialSigState 4096
       SIGSEGV [SIGSEGV] eq_refl eq_refl eq_refl eq_refl Hin eq_refl))).
Defined.

(** * Further properties of the log handler *)

Section LogSinkMore.

Local Open Scope string_scope.

Variable path : QString.

Lemma qtMsgLog_appends (ts : Z) (log : option QFile) (type : QtMsgType)
    (context : QMessageLogContext) (msg : QString) :
  isOpen (fst (qtMsgLog path true ts log type context msg)) = true
  /\ contents (fst (qtMsgLog path true ts log type context msg))
     = contentsAtEntry log ++ recordText ts type context msg.
Proof.
  split.
  - rewrite qtMsgLog_writes. cbn [fst].
    destruct (opened_ok path log) as [Ho _].
    destruct (function context); rewrite !isOpen_write; exact Ho.
  - unfold recordText. rewrite !qtMsgLog_contents. reflexivity.
Qed.

Lemma write_closed (f : QFile) (data : string) :
  isOpen f = false -> QFile_write f data = f.
Proof. intros E; unfold QFile_write; rewrite E; reflexivity. Qed.

Lemma qtMsgLog_outcome (openOk : bool) (ts : Z) (log : option QFile)
    (type : QtMsgType) (context : QMessageLogContext) (msg : QString) :
  snd (qtMsgLog path openOk ts log type context msg)
  = if isFatal type then Aborted else Returned.
Proof. rewrite qtMsgLog_writes. reflexivity. Qed.

End LogSinkMore.

(** Property X1.  The log is append-only over a run: a process that logs records none
    of which is fatal returns from every call, and the file ends with
    what it held on entry followed by the records in the order they were
    logged; the file is opened, and so emptied, at most once. *)
Theorem logAll_appends_in_order (path : QString) (log : option QFile)
    (records : list LogRecord) :
  forallb (fun r => negb (isFatal (severity r))) records = true ->
  snd (logAll path true log records) = Returned
  /\ contentsAtEntry (fst (logAll path true log records))
     = (contentsAtEntry log ++ logText records)%string.
Proof.
  revert log; induction records as [|r rest IH]; intros log Hok.
  - cbn [logAll fst snd logText]. split; [reflexivity|].
    symmetry. clear. generalize (contentsAtEntry log) as c.
    induction c as [|x c IHc]; simpl; [reflexivity | now rewrite IHc].
  - cbn [forallb] in Hok. apply andb_prop in Hok as [Hr Hrest].
    cbn [logAll logText].
    pose proof (qtMsgLog_outcome path true (elapsedMillis r) log (severity r)
                  (origin r) (message r)) as Hout.
    destruct (qtMsgLog_appends path (elapsedMillis r) log (severity r)
                (origin r) (message r)) as [Hopen Hcont].
    destruct (qtMsgLog path true (elapsedMillis r) log (severity r)
                (origin r) (message r)) as [f out].
    cbn [fst snd] in *.
    destruct (isFatal (severity r)); [discriminate|]. subst out.
    destruct (IH (Some f) Hrest) as [Hs Hc]. split; [exact Hs|].
    rewrite Hc. cbn [contentsAtEntry]. rewrite Hopen, Hcont.
    apply append_assoc.
Qed.

Lemma logAll_appends_in_order_witness :
  forallb (fun r => negb (isFatal (severity r))) sampleRecords = true
  /\ contentsAtEntry (fst (logAll "log" true None sampleRecords))
     = ("[     0.005 d] a" ++ newline
        ++ "[     1.234 W] foo:10: bar" ++ newline)%string.
Proof.
  split; [reflexivity|].
  rewrite (proj2 (logAll_appends_in_order "log" None sampleRecords eq_refl)).
  reflexivity.
Defined.

(** Property X2.  A log file that cannot be opened takes nothing: the call leaves the
    file closed and empty and still ends as the severity says; the
    record is lost, for the next call, once the file can be opened,
    leaves its own record only. *)
Theorem qtMsgLog_unopenable_drops_record (path : QString) (ts ts' : Z)
    (type type' : QtMsgType) (context context' : QMessageLogContext)
    (msg msg' : QString) :
  fst (qtMsgLog path false ts None type context msg) = QFile_new path
  /\ snd (qtMsgLog path false ts None type context msg)
     = (if isFatal type then Aborted else Returned)
  /\ contents
       (fst (qtMsgLog path true ts'
               (Some (fst (qtMsgLog path false ts None type context msg)))
               type' context' msg'))
     = recordText ts' type' context' msg'.
Proof.
  assert (H1 : fst (qtMsgLog path false ts None type context msg)
               = QFile_new path).
  { rewrite qtMsgLog_writes. cbn [fst].
    assert (Hc : isOpen (opened path false None) = false) by reflexivity.
    destruct (function context);
      rewrite !write_closed by (rewrite ?write_closed by exact Hc; exact Hc);
      reflexivity. }
  split; [exact H1|]. split; [apply qtMsgLog_outcome|].
  rewrite H1.
  destruct (qtMsgLog_appends path ts' (Some (QFile_new path)) type' context' msg')
    as [_ ->].
  reflexivity.
Qed.

Section TimestampFacts.

Local Open Scope string_scope.

(** A number below 10^k prints in at most k digits. *)
Lemma length_utoa_digits (fuel : nat) (k : nat) (n : Z) (acc : string) :
  (1 <= k)%nat -> 0 <= n < 10 ^ Z.of_nat k ->
  (String.length (utoa fuel n acc) <= k + String.length acc)%nat.
Proof.
  revert k n acc; induction fuel as [|fuel IH]; intros k n acc Hk Hn.
  - cbn [utoa]. lia.
  - rewrite utoa_step.
    destruct (Z.eqb_spec (n / 10) 0) as [E|N]; [cbn [String.length]; lia|].
    destruct k as [|k]; [lia|].
    rewrite Nat2Z.inj_succ, Z.pow_succ_r in Hn by lia.
    destruct k as [|k].
    + exfalso. apply N. apply Z.div_small. cbn in Hn. lia.
    + specialize (IH (S k) (n / 10) (String (digitChar (n mod 10)) acc)).
      cbn [String.length] in IH.
      assert (0 <= n / 10 < 10 ^ Z.of_nat (S k))
        by (split; [apply Z.div_pos; lia | apply Z.div_lt_upper_bound; lia]).
      specialize (IH ltac:(lia) ltac:(assumption)). lia.
Qed.

Lemma length_seconds_field (secs : Z) :
  0 <= secs < 1000000 -> String.length (fmtInt false 6 secs) = 6%nat.
Proof.
  intros H. rewrite fmtInt_nonneg by lia.
  pose proof (length_utoa_digits 20 6 secs EmptyString ltac:(lia)
                ltac:(change (10 ^ Z.of_nat 6) with 1000000; lia)) as Hle.
  cbn [String.length] in Hle.
  rewrite length_append, length_replicate. lia.
Qed.

Lemma millis_value (m : Z) :
  0 <= m < 1000 -> digitsValue (fmtInt true 3 m) 0 = m.
Proof.
  intros Hm. rewrite fmtInt_millis by exact Hm. cbn [digitsValue].
  assert (H100 : 0 <= m / 100 < 10)
    by (split; [apply Z.div_pos; lia | apply Z.div_lt_upper_bound; lia]).
  rewrite !digitChar_value
    by first [exact H100 | apply Z.mod_pos_bound; lia].
  pose proof (Z.div_mod m 10 ltac:(lia)).
  pose proof (Z.div_mod (m / 10) 10 ltac:(lia)).
  pose proof (Z.mod_pos_bound m 10 ltac:(lia)).
  pose proof (Z.mod_pos_bound (m / 10) 10 ltac:(lia)).
  assert (m / 10 / 10 = m / 100) by (rewrite Z.div_div by lia; reflexivity).
  lia.
Qed.

End TimestampFacts.

(** Property X3.  The time stamp of a log line loses nothing: for every reading of the
    64-bit clock from 0 on, the prefix is the bracket, blanks, the
    decimal digits of the whole seconds, a dot and three digits of
    milliseconds, and reading the two numbers back gives the clock
    reading, seconds times 1000 plus milliseconds. *)
Theorem timestamp_reads_back (ts : Z) (typeChar : ascii) :
  0 <= ts < 2 ^ 63 ->
  snprintf 64 "[%6lld.%03lld %c] "
    [ArgInt (Z.quot ts 1000); ArgInt (Z.rem ts 1000); ArgChar typeChar]
  = ("["
     ++ replicate (6 - String.length (utoa 20 (ts / 1000) EmptyString)) " "
     ++ utoa 20 (ts / 1000) EmptyString
     ++ "." ++ fmtInt true 3 (ts mod 1000)
     ++ " " ++ String typeChar "] ")%string
  /\ String.length (fmtInt true 3 (ts mod 1000)) = 3%nat
  /\ digitsValue (utoa 20 (ts / 1000) EmptyString) 0 * 1000
     + digitsValue (fmtInt true 3 (ts mod 1000)) 0 = ts.
Proof.
  intros Hts.
  pose proof (Z.mod_pos_bound ts 1000 ltac:(lia)) as Hm.
  assert (Hs : 0 <= ts / 1000 < 10 ^ Z.of_nat 20).
  { split; [apply Z.div_pos; lia|].
    apply Z.div_lt_upper_bound; [lia|].
    change (10 ^ Z.of_nat 20) with 100000000000000000000.
    change (2 ^ 63) with 9223372036854775808 in Hts. lia. }
  split; [|split].
  - rewrite snprintf_prefix.
    rewrite Z.quot_div_nonneg, Z.rem_mod_nonneg by lia.
    rewrite fmtInt_nonneg by lia.
    cbn [append]. rewrite !append_assoc. reflexivity.
  - rewrite fmtInt_millis by exact Hm. reflexivity.
  - rewrite millis_value by exact Hm.
    rewrite (utoa_value 20 (ts / 1000) EmptyString Hs). cbn [digitsValue].
    pose proof (Z.div_mod ts 1000 ltac:(lia)). lia.
Qed.

Lemma timestamp_reads_back_witness :
  0 <= 86399999 < 2 ^ 63
  /\ digitsValue (utoa 20 (86399999 / 1000) EmptyString) 0 * 1000
     + digitsValue (fmtInt true 3 (86399999 mod 1000)) 0 = 86399999.
Proof.
  assert (H : 0 <= 86399999 < 2 ^ 63) by (split; [lia | reflexivity]).
  split; [exact H|].
  exact (proj2 (proj2 (timestamp_reads_back 86399999 "d"%char H))).
Defined.

(** Property X4.  The columns of the log line up: during the first million seconds
    after start-up the prefix is 15 bytes long; later the seconds field
    widens, and for no clock reading at all is the prefix longer than 48
    bytes, so the 64-byte buffer never cuts it. *)
Theorem timestamp_prefix_width (ts : Z) (typeChar : ascii) :
  0 <= ts < 1000000000 ->
  String.length
    (snprintf 64 "[%6lld.%03lld %c] "
       [ArgInt (Z.quot ts 1000); ArgInt (Z.rem ts 1000); ArgChar typeChar])
  = 15%nat
  /\ forall (any : Z),
       (15 <= String.length
                (snprintf 64 "[%6lld.%03lld %c] "
                   [ArgInt (Z.quot any 1000); ArgInt (Z.rem any 1000);
                    ArgChar typeChar]) <= 48)%nat.
Proof.
  intros Hts. split.
  - rewrite snprintf_prefix.
    rewrite Z.quot_div_nonneg, Z.rem_mod_nonneg by lia.
    assert (Hsecs : 0 <= ts / 1000 < 1000000)
      by (split; [apply Z.div_pos; lia | apply Z.div_lt_upper_bound; lia]).
    pose proof (length_seconds_field (ts / 1000) Hsecs) as H6.
    assert (H3 : String.length (fmtInt true 3 (ts mod 1000)) = 3%nat)
      by (rewrite fmtInt_millis by (apply Z.mod_pos_bound; lia); reflexivity).
    set (a := fmtInt false 6 (ts / 1000)) in *.
    set (b := fmtInt true 3 (ts mod 1000)) in *.
    cbn [String.append String.length]. rewrite length_append.
    cbn [String.append String.length]. rewrite length_append.
    cbn [String.append String.length]. lia.
  - intros any. rewrite snprintf_prefix.
    pose proof (length_fmtInt false 6 (Z.quot any 1000)) as Ha.
    pose proof (length_fmtInt true 3 (Z.rem any 1000)) as Hb.
    assert (Ha6 : (6 <= String.length (fmtInt false 6 (Z.quot any 1000)))%nat).
    { unfold fmtInt. rewrite !length_append, length_replicate. lia. }
    assert (Hb3 : (3 <= String.length (fmtInt true 3 (Z.rem any 1000)))%nat).
    { unfold fmtInt. rewrite !length_append, length_replicate. lia. }
    set (a := fmtInt false 6 (Z.quot any 1000)) in *.
    set (b := fmtInt true 3 (Z.rem any 1000)) in *.
    cbn [String.append String.length]. rewrite length_append.
    cbn [String.append String.length]. rewrite length_append.
    cbn [String.append String.length]. lia.
Qed.

Lemma timestamp_prefix_width_witness :
  0 <= 1234 < 1000000000
  /\ String.length
       (snprintf 64 "[%6lld.%03lld %c] "
          [ArgInt (Z.quot 1234 1000); ArgInt (Z.rem 1234 1000); ArgChar "W"])
     = 15%nat.
Proof.
  assert (H : 0 <= 1234 < 1000000000) by lia.
  split; [exact H|].
  exact (proj1 (timestamp_prefix_width 1234 "W"%char H)).
Defined.

(** * Further properties of CrashGuard *)

Section CrashGuardMore.

Variable os : OS.

Lemma installLoop_warnings (sa : sigaction_t) (arr : list Z) (st : SigState) :
  snd (installLoop os sa arr st)
  = map NoHandlerFor
      (filter (fun s => negb (sigaction_ok os s)) (untilZero arr)).
Proof.
  revert st; induction arr as [|sig rest IH]; intros st; cbn [installLoop untilZero].
  - reflexivity.
  - destruct (sig =? 0); [reflexivity|]. cbn [filter].
    destruct (sigaction_ok os sig); cbn [negb].
    + apply IH.
    + specialize (IH st).
      destruct (installLoop os sa rest st) as [st' ws].
      cbn [snd] in *. now rewrite IH.
Qed.

Lemma setupSignalHandler_blocked (st : SigState) :
  blocked (snd (fst (setupSignalHandler os st))) = blocked st.
Proof.
  unfold setupSignalHandler.
  destruct (malloc os SIGSTKSZ) as [sp|]; [|reflexivity].
  destruct (sigaltstack_ok os); [|reflexivity].
  destruct (sigemptyset_ok os); [|reflexivity].
  cbn [negb].
  match goal with
  | |- context [installLoop os ?sa ?arr ?st0] =>
    pose proof (installLoop_frame os sa arr st0) as [Hb _];
    destruct (installLoop os sa arr st0) as [st' ws]
  end.
  exact Hb.
Qed.

(** When the three preparations succeed, the result of the installation
    in closed form. *)
Lemma setupSignalHandler_prepared (st : SigState) (sp : Z) :
  malloc os SIGSTKSZ = Some sp ->
  sigaltstack_ok os = true ->
  sigemptyset_ok os = true ->
  (forall s, actions (snd (fst (setupSignalHandler os st))) s
             = if existsb (Z.eqb s) fatalSignals && sigaction_ok os s
               then crashAction else actions st s)
  /\ snd (setupSignalHandler os st)
     = map NoHandlerFor
         (filter (fun s => negb (sigaction_ok os s)) fatalSignals)
  /\ fst (fst (setupSignalHandler os st)) = Some sp
  /\ altstack (snd (fst (setupSignalHandler os st))) = Some sp.
Proof.
  intros Hm Hs He. unfold setupSignalHandler. rewrite Hm, Hs, He. cbn [negb].
  match goal with
  | |- context [installLoop os ?sa ?arr ?st0] =>
    pose proof (fun s => installLoop_actions os sa arr st0 s) as Hact;
    pose proof (installLoop_warnings sa arr st0) as Hw;
    pose proof (installLoop_frame os sa arr st0) as [_ Ha];
    destruct (installLoop os sa arr st0) as [st' ws]
  end.
  cbn [fst snd] in *. repeat split; assumption.
Qed.

End CrashGuardMore.

(** Property X5.  Installation stops at the first preparation that fails: when the
    stack cannot be allocated, the alternate stack cannot be set or the
    signal set cannot be emptied, one warning is issued, no signal gets
    the handler (every action and the signal mask stay as they were), and
    the process goes on unprotected. *)
Theorem setupSignalHandler_gives_up_early (os : OS) (st : SigState) :
  malloc os SIGSTKSZ = None \/ sigaltstack_ok os = false
  \/ sigemptyset_ok os = false ->
  (forall s, actions (snd (fst (setupSignalHandler os st))) s = actions st s)
  /\ blocked (snd (fst (setupSignalHandler os st))) = blocked st
  /\ armed (snd (fst (setupSignalHandler os st))) = armed st
  /\ List.length (snd (setupSignalHandler os st)) = 1%nat
  /\ forall faults,
       handlerEntries (snd (fst (setupSignalHandler os initialSigState))) faults
       = 0%nat.
Proof.
  intros Hfail.
  assert (Hsame : forall st0 s,
             actions (snd (fst (setupSignalHandler os st0))) s = actions st0 s
             /\ List.length (snd (setupSignalHandler os st0)) = 1%nat).
  { intros st0 s. unfold setupSignalHandler.
    destruct (malloc os SIGSTKSZ) as [sp|]; [|split; reflexivity].
    destruct (sigaltstack_ok os); [|split; reflexivity].
    destruct (sigemptyset_ok os); [|split; reflexivity].
    destruct Hfail as [H|[H|H]]; discriminate. }
  split; [intros s; apply Hsame|].
  split; [apply setupSignalHandler_blocked|].
  split; [|split; [apply (Hsame st 0)|]].
  - unfold armed. apply filter_ext. intros s. unfold isHandled.
    now rewrite (proj1 (Hsame st s)).
  - intros [|s rest]; [reflexivity|]. cbn [handlerEntries].
    unfold deliver, isBlocked.
    rewrite setupSignalHandler_blocked, (proj1 (Hsame initialSigState s)).
    reflexivity.
Qed.

Lemma setupSignalHandler_gives_up_early_witness :
  (malloc {| malloc := fun _ => Some 4096; sigaltstack_ok := false;
             sigemptyset_ok := true; sigaction_ok := fun _ => true |}
          SIGSTKSZ = None
   \/ sigaltstack_ok
        {| malloc := fun _ => Some 4096; sigaltstack_ok := false;
           sigemptyset_ok := true; sigaction_ok := fun _ => true |} = false
   \/ sigemptyset_ok
        {| malloc := fun _ => Some 4096; sigaltstack_ok := false;
           sigemptyset_ok := true; sigaction_ok := fun _ => true |} = false)
  /\ armed (snd (fst (setupSignalHandler
                        {| malloc := fun _ => Some 4096;
                           sigaltstack_ok := false;
                           sigemptyset_ok := true;
                           sigaction_ok := fun _ => true |}
                        initialSigState)))
     = armed initialSigState.
Proof.
  split; [right; left; reflexivity|].
  exact (proj1 (proj2 (proj2
    (setupSignalHandler_gives_up_early
       {| malloc := fun _ => Some 4096; sigaltstack_ok := false;
          sigemptyset_ok := true; sigaction_ok := fun _ => true |}
       initialSigState (or_intror (or_introl eq_refl)))))).
Defined.

(** Property X6.  Once the preparations have succeeded the signals are handled one by
    one: a fatal signal gets the crash action exactly when [sigaction]
    accepts it, every refusal is warned about, in the order of the array,
    and a refusal stops nothing: from process start the armed signals
    are the fatal signals that were accepted. *)
Theorem setupSignalHandler_installs_each (os : OS) (st : SigState) (sp : Z) :
  malloc os SIGSTKSZ = Some sp ->
  sigaltstack_ok os = true ->
  sigemptyset_ok os = true ->
  (forall s, actions (snd (fst (setupSignalHandler os st))) s
             = if existsb (Z.eqb s) fatalSignals && sigaction_ok os s
               then crashAction else actions st s)
  /\ snd (setupSignalHandler os st)
     = map NoHandlerFor
         (filter (fun s => negb (sigaction_ok os s)) fatalSignals)
  /\ armed (snd (fst (setupSignalHandler os initialSigState)))
     = filter (sigaction_ok os) fatalSignals.
Proof.
  intros Hm Hs He.
  destruct (setupSignalHandler_prepared os st sp Hm Hs He)
    as (Hact & Hw & _ & _).
  split; [exact Hact|]. split; [exact Hw|].
  destruct (setupSignalHandler_prepared os initialSigState sp Hm Hs He)
    as (Hact0 & _).
  unfold armed. apply filter_ext_in. intros s Hin. unfold isHandled.
  rewrite Hact0.
  replace (existsb (Z.eqb s) fatalSignals) with true
    by (symmetry; apply existsb_exists; exists s;
        split; [exact Hin | apply Z.eqb_refl]).
  cbn [andb]. destruct (sigaction_ok os s); reflexivity.
Qed.

Lemma setupSignalHandler_installs_each_witness :
  armed (snd (fst (setupSignalHandler
                     {| malloc := fun _ => Some 4096; sigaltstack_ok := true;
                        sigemptyset_ok := true;
                        sigaction_ok := fun s => negb (s =? SIGBUS) |}
                     initialSigState)))
  = [SIGILL; SIGABRT; SIGFPE; SIGSEGV]
  /\ snd (setupSignalHandler
            {| malloc := fun _ => Some 4096; sigaltstack_ok := true;
               sigemptyset_ok := true;
               sigaction_ok := fun s => negb (s =? SIGBUS) |}
            initialSigState)
     = [NoHandlerFor SIGBUS].
Proof.
  pose proof (setupSignalHandler_installs_each
                {| malloc := fun _ => Some 4096; sigaltstack_ok := true;
                   sigemptyset_ok := true;
                   sigaction_ok := fun s => negb (s =? SIGBUS) |}
                initialSigState 4096 eq_refl eq_refl eq_refl) as H.
  split; [exact (proj2 (proj2 H)) | exact (proj1 (proj2 H))].
Defined.

(** Property X7.  The installation leaves every other signal alone: whatever the
    operating system answers, a signal outside the five fatal ones
    (SIGPIPE, which Qt's sockets and processes rely on, is one) keeps the
    action it had, and no signal is added to or taken from the mask. *)
Theorem setupSignalHandler_spares_other_signals (os : OS) (st : SigState)
    (sig : Z) :
  ~ In sig fatalSignals ->
  actions (snd (fst (setupSignalHandler os st))) sig = actions st sig
  /\ blocked (snd (fst (setupSignalHandler os st))) = blocked st.
Proof.
  intros Hout. split; [|apply setupSignalHandler_blocked].
  destruct (setupSignalHandler_actions os st sig) as [E|[_ Hin]];
    [exact E | contradiction].
Qed.

Lemma setupSignalHandler_spares_other_signals_witness :
  ~ In 13 fatalSignals
  /\ actions (snd (fst (setupSignalHandler (Entry.os sampleEnv) initialSigState)))
       13 = defaultAction.
Proof.
  assert (H : ~ In 13 fatalSignals).
  { unfold fatalSignals, SIGILL, SIGABRT, SIGFPE, SIGSEGV, SIGBUS.
    simpl. intros H. decompose [or] H; lia. }
  split; [exact H|].
  exact (proj1 (setupSignalHandler_spares_other_signals
                  (Entry.os sampleEnv) initialSigState 13 H)).
Defined.

(** Property X8.  Entering the crash handler blocks nothing: the signal mask the
    handler runs with, and which the respawned process inherits through
    [fork] and [execl], is the mask the process had before. *)
Theorem crash_handler_keeps_signal_mask (os : OS) (st : SigState) (sp : Z)
    (sig : Z) :
  malloc os SIGSTKSZ = Some sp ->
  sigaltstack_ok os = true ->
  sigemptyset_ok os = true ->
  sigaction_ok os sig = true ->
  In sig fatalSignals ->
  isBlocked st sig = false ->
  exists (st2 : SigState) (onAltStack : bool),
    deliver (snd (fst (setupSignalHandler os st))) sig
    = EntersHandler st2 onAltStack
    /\ blocked st2 = blocked st
    /\ forall other, isBlocked st2 other = isBlocked st other.
Proof.
  intros Hm Hs He Hok Hin Hnb.
  destruct (setupSignalHandler_installs os st sp sig Hm Hs He Hok Hin)
    as (Hact & Hb & Ha).
  assert (Hnb1 : isBlocked (snd (fst (setupSignalHandler os st))) sig = false)
    by (unfold isBlocked; rewrite Hb; exact Hnb).
  eexists _, _. split; [apply (deliver_crashAction _ sig Hnb1 Hact)|].
  cbn [blocked]. split; [exact Hb|].
  intros other. unfold isBlocked. cbn [blocked]. now rewrite Hb.
Qed.

Lemma crash_handler_keeps_signal_mask_witness :
  In SIGFPE fatalSignals
  /\ exists (st2 : SigState) (onAltStack : bool),
       deliver (snd (fst (setupSignalHandler (Entry.os sampleEnv)
                            initialSigState))) SIGFPE
       = EntersHandler st2 onAltStack
       /\ blocked st2 = [].
Proof.
  assert (Hin : In SIGFPE fatalSignals) by (simpl; tauto).
  split; [exact Hin|].
  destruct (crash_handler_keeps_signal_mask (Entry.os sampleEnv) initialSigState
              4096 SIGFPE eq_refl eq_refl eq_refl eq_refl Hin eq_refl)
    as (st2 & b & Hd & Hb & _).
  exists st2, b. split; [exact Hd | exact Hb].
Defined.

(** * Further properties of main *)

Section MainMore.

Variable env : Env.
Variable opts : Options.

(** Lines 182-224 in closed form. *)
Lemma captureAndConfigure_state (w : World) :
  captureAndConfigure env opts w
  = (Next tt,
     {| globals :=
          {| grefsonExecutablePath := toLocal8Bit (applicationFilePath env);
             grefsonPID := applicationPid env;
             signalHandlerStack :=
               if respawnOption opts
               then fst (fst (setupSignalHandler (os env) (sigState w)))
               else signalHandlerStack (globals w);
             logFilePath :=
               match logFileOption opts with
               | Some file => file
               | None => logFilePath (globals w)
               end;
             grefsenConfigDirPath :=
               match configDirOption opts with
               | Some dir => dir
               | None => grefsenConfigDirPath (globals w)
               end |};
        assigned :=
          assigned w
          ++ [Var_grefsonExecutablePath; Var_grefsonPID]
          ++ (if respawnOption opts then [Var_signalHandlerStack] else [])
          ++ match configDirOption opts with
             | Some _ => [Var_grefsenConfigDirPath]
             | None => []
             end
          ++ match logFileOption opts with
             | Some _ => [Var_logFilePath]
             | None => []
             end;
        sigState :=
          if respawnOption opts
          then snd (fst (setupSignalHandler (os env) (sigState w)))
          else sigState w;
        heap := heap w;
        events :=
          events w
          ++ (if respawnOption opts
              then map SetupWarned
                     (snd (setupSignalHandler (os env) (sigState w)))
              else [])
          ++ match logFileOption opts with
             | Some _ => [MessageHandlerInstalled]
             | None => []
             end |}).
Proof.
  unfold captureAndConfigure.
  unfold bind at 1. cbn [assign_grefsonExecutablePath bind getGlobals setGlobals].
  unfold bind at 1. cbn [assign_grefsonPID bind getGlobals setGlobals
                         globals assigned sigState heap events
                         grefsonExecutablePath grefsonPID signalHandlerStack
                         logFilePath grefsenConfigDirPath].
  destruct (respawnOption opts).
  - unfold bind at 1. rewrite callSetupSignalHandler_run.
    cbn [globals assigned sigState heap events
         grefsonExecutablePath grefsonPID signalHandlerStack
         logFilePath grefsenConfigDirPath].
    destruct (configDirOption opts), (logFileOption opts);
      cbv [bind emit pure assign_logFilePath assign_grefsenConfigDirPath
           getGlobals setGlobals];
      cbn [globals assigned sigState heap events
           grefsonExecutablePath grefsonPID signalHandlerStack
           logFilePath grefsenConfigDirPath app];
      rewrite <- ?app_assoc, ?app_nil_r; reflexivity.
  - destruct (configDirOption opts), (logFileOption opts);
      cbv [bind emit pure assign_logFilePath assign_grefsenConfigDirPath
           getGlobals setGlobals];
      cbn [globals assigned sigState heap events
           grefsonExecutablePath grefsonPID signalHandlerStack
           logFilePath grefsenConfigDirPath app];
      rewrite <- ?app_assoc, ?app_nil_r; reflexivity.
Qed.

(** What follows line 224 writes no global and changes no signal
    action. *)
Lemma main_after_configure (w : World) :
  globals (snd (main env opts w))
  = globals (snd (captureAndConfigure env opts w))
  /\ sigState (snd (main env opts w))
     = sigState (snd (captureAndConfigure env opts w))
  /\ assigned (snd (main env opts w))
     = assigned (snd (captureAndConfigure env opts w)).
Proof.
  unfold main, bind. rewrite captureAndConfigure_state. cbn [snd].
  rewrite selectScreens_run.
  destruct (screenOption opts) as [scrNames|];
    [destruct (keepScreens scrNames (allScreens env) [])|];
    rewrite ?placeAndRun_run; repeat split; reflexivity.
Qed.

Lemma main_result (w : World) :
  main env opts w
  = match screenOption opts, selectedScreens env opts with
    | Some scrNames, [] =>
      (Leave (-1),
       withEvents (snd (captureAndConfigure env opts w))
         (WarnedNoScreens scrNames
            :: map (fun scr => WarnedAvailable (name scr) (geometry scr))
                   (allScreens env)))
    | _, screens =>
      placeAndRun env opts screens (snd (captureAndConfigure env opts w))
    end.
Proof.
  unfold main, bind, selectedScreens. rewrite captureAndConfigure_state.
  cbn [snd]. rewrite selectScreens_run.
  destruct (screenOption opts) as [scrNames|];
    [destruct (keepScreens scrNames (allScreens env) [])|]; reflexivity.
Qed.

Lemma handlerEntries_unarmed (faults : list Z) :
  handlerEntries initialSigState faults = 0%nat.
Proof. destruct faults; reflexivity. Qed.

Lemma filter_all {A} (f : A -> bool) (l : list A) :
  (forall a, In a l -> f a = true) -> filter f l = l.
Proof.
  induction l as [|a l IH]; intros H; simpl; [reflexivity|].
  rewrite (H a) by (left; reflexivity).
  f_equal. apply IH. intros b Hb. apply H. right; exact Hb.
Qed.

End MainMore.

(** Property X10.  When main reaches the event loop, it has done, in this order: the
    start-up steps; one debug line per selected screen; the scene's
    [fullscreenAllowed] set to whether [-w] is absent; the calls of the
    placement loop, windowed exactly when [-w] is given; and then, last
    and once, the event loop. *)
Theorem main_order_of_effects (env : Env) (opts : Options) (h : Heap)
    (code : Z) :
  fst (main env opts (initialWorld env h)) = Next code ->
  code = execResult env
  /\ exists startup : list Event,
       forallb isStartupEvent startup = true
       /\ events (snd (main env opts (initialWorld env h)))
          = startup
            ++ map DebugScreen (selectedScreens env opts)
            ++ [FullscreenAllowedSet (negb (windowOption opts))]
            ++ flat_map (callsFor (windowOption opts))
                 (combine (childWindows env) (selectedScreens env opts))
            ++ [EventLoopEntered].
Proof.
  intros Hnext.
  destruct (captureAndConfigure_run env opts (initialWorld env h))
    as (w1 & vars & evs & Hrun & _ & _ & _ & _ & _ & Hev & Hstart).
  cbn [initialWorld events app] in Hev.
  rewrite main_result in Hnext |- *. rewrite Hrun in *. cbn [snd] in *.
  destruct (screenOption opts) as [scrNames|],
           (selectedScreens env opts) as [|scr screens];
    try discriminate;
    rewrite placeAndRun_run in Hnext |- *; cbn [fst snd events] in *;
    (split; [now injection Hnext|]);
    exists evs; (split; [exact Hstart|]); rewrite Hev; reflexivity.
Qed.

Lemma main_order_of_effects_witness :
  fst (main sampleEnv
         {| respawnOption := false; logFileOption := None;
            configDirOption := None; screenOption := Some ["edp-1"];
            windowOption := true |}
         (initialWorld sampleEnv sceneHeap)) = Next 0
  /\ 0 = execResult sampleEnv.
Proof.
  split; [reflexivity|].
  exact (proj1 (main_order_of_effects sampleEnv
                  {| respawnOption := false; logFileOption := None;
                     configDirOption := None; screenOption := Some ["edp-1"];
                     windowOption := true |}
                  sceneHeap 0 eq_refl)).
Defined.

(** Property X11.  Crash protection is opt-in: without [-r] main allocates no signal
    stack and changes no signal action, so every fault takes its default
    action and the handler is never entered. *)
Theorem main_without_respawn_is_unprotected (env : Env) (opts : Options)
    (h : Heap) (faults : list Z) :
  respawnOption opts = false ->
  sigState (snd (main env opts (initialWorld env h))) = initialSigState
  /\ signalHandlerStack (globals (snd (main env opts (initialWorld env h))))
     = None
  /\ handlerEntries (sigState (snd (main env opts (initialWorld env h)))) faults
     = 0%nat.
Proof.
  intros Hoff.
  destruct (main_after_configure env opts (initialWorld env h)) as (-> & -> & _).
  rewrite captureAndConfigure_state, Hoff. cbn [snd sigState globals
    signalHandlerStack initialWorld].
  repeat split. apply handlerEntries_unarmed.
Qed.

Lemma main_without_respawn_is_unprotected_witness :
  handlerEntries
    (sigState (snd (main sampleEnv
                      {| respawnOption := false; logFileOption := None;
                         configDirOption := None; screenOption := None;
                         windowOption := false |}
                      (initialWorld sampleEnv sceneHeap))))
    [SIGSEGV] = 0%nat.
Proof.
  exact (proj2 (proj2
    (main_without_respawn_is_unprotected sampleEnv
       {| respawnOption := false; logFileOption := None;
          configDirOption := None; screenOption := None;
          windowOption := false |}
       sceneHeap [SIGSEGV] eq_refl))).
Defined.

(** Property X12.  With [-r], and an operating system that grants every request, main
    ends, whichever way it ends, with the five fatal signals armed, the
    signal stack recorded in [signalHandlerStack] and installed as the
    alternate stack, and no warning issued. *)
Theorem main_with_respawn_arms_all (env : Env) (opts : Options) (h : Heap)
    (sp : Z) :
  respawnOption opts = true ->
  malloc (os env) SIGSTKSZ = Some sp ->
  sigaltstack_ok (os env) = true ->
  sigemptyset_ok (os env) = true ->
  (forall s, sigaction_ok (os env) s = true) ->
  armed (sigState (snd (main env opts (initialWorld env h)))) = fatalSignals
  /\ signalHandlerStack (globals (snd (main env opts (initialWorld env h))))
     = Some sp
  /\ altstack (sigState (snd (main env opts (initialWorld env h)))) = Some sp
  /\ snd (setupSignalHandler (os env) initialSigState) = [].
Proof.
  intros Hon Hm Hs He Hall.
  destruct (main_after_configure env opts (initialWorld env h)) as (-> & -> & _).
  rewrite captureAndConfigure_state, Hon.
  cbn [snd sigState globals signalHandlerStack initialWorld].
  destruct (setupSignalHandler_prepared (os env) initialSigState sp Hm Hs He)
    as (Hact & Hw & Hsp & Halt).
  split; [|split; [exact Hsp | split; [exact Halt|]]].
  - unfold armed. apply filter_all. intros s Hin. unfold isHandled.
    rewrite Hact, Hall.
    replace (existsb (Z.eqb s) fatalSignals) with true
      by (symmetry; apply existsb_exists; exists s;
          split; [exact Hin | apply Z.eqb_refl]).
    reflexivity.
  - rewrite Hw. clear Hact Hw.
    induction fatalSignals as [|s l IH]; cbn [filter map]; [reflexivity|].
    rewrite Hall. exact IH.
Qed.

Lemma main_with_respawn_arms_all_witness :
  (forall s, sigaction_ok (os sampleEnv) s = true)
  /\ armed (sigState (snd (main sampleEnv
                             {| respawnOption := true; logFileOption := None;
                                configDirOption := None;
                                screenOption := Some ["nonexistent"];
                                windowOption := false |}
                             (initialWorld sampleEnv sceneHeap))))
     = fatalSignals.
Proof.
  split; [intros s; reflexivity|].
  exact (proj1
    (main_with_respawn_arms_all sampleEnv
       {| respawnOption := true; logFileOption := None;
          configDirOption := None; screenOption := Some ["nonexistent"];
          windowOption := false |}
       sceneHeap 4096 eq_refl eq_refl eq_refl eq_refl (fun s => eq_refl))).
Defined.

(** Property X13.  The paths main leaves in the globals: the log file path is the
    value of [-l], empty without it; the configuration directory is the
    value of [-c] and, without it, [.config/grefsen/] under the home
    directory; neither option disturbs the other or the identity of the
    process.  This holds however main ends. *)
Theorem main_configured_paths (env : Env) (opts : Options) (h : Heap) :
  logFilePath (globals (snd (main env opts (initialWorld env h))))
  = match logFileOption opts with
    | Some file => file
    | None => EmptyString
    end
  /\ grefsenConfigDirPath (globals (snd (main env opts (initialWorld env h))))
     = match configDirOption opts with
       | Some dir => dir
       | None => (homePath env ++ "/.config/grefsen/")%string
       end
  /\ assigned (snd (main env opts (initialWorld env h)))
     = [Var_grefsonExecutablePath; Var_grefsonPID]
       ++ (if respawnOption opts then [Var_signalHandlerStack] else [])
       ++ match configDirOption opts with
          | Some _ => [Var_grefsenConfigDirPath]
          | None => []
          end
       ++ match logFileOption opts with
          | Some _ => [Var_logFilePath]
          | None => []
          end.
Proof.
  destruct (main_after_configure env opts (initialWorld env h)) as (-> & _ & ->).
  rewrite captureAndConfigure_state. repeat split.
Qed.

(** Property X14.  The message handler is in place before the screens are checked:
    with [-l], when no requested screen exists, the last thing main did
    before warning about the screens was to record the log file path and
    install the handler, so the warnings are the handler's to write. *)
Theorem main_warns_after_handler_installed (env : Env) (opts : Options)
    (h : Heap) (file : QString) (scrNames : QStringList) :
  logFileOption opts = Some file ->
  screenOption opts = Some scrNames ->
  keepScreens scrNames (allScreens env) [] = [] ->
  logFilePath (globals (snd (main env opts (initialWorld env h)))) = file
  /\ exists before : list Event,
       events (snd (main env opts (initialWorld env h)))
       = before
         ++ MessageHandlerInstalled
         :: WarnedNoScreens scrNames
         :: map (fun scr => WarnedAvailable (name scr) (geometry scr))
                (allScreens env).
Proof.
  intros Hlog Hscr Hnone.
  split.
  - destruct (main_after_configure env opts (initialWorld env h)) as (-> & _).
    rewrite captureAndConfigure_state, Hlog. reflexivity.
  - rewrite main_result. unfold selectedScreens. rewrite Hscr, Hnone.
    rewrite captureAndConfigure_state, Hlog.
    cbn [snd withEvents events initialWorld sigState app].
    exists (if respawnOption opts
            then map SetupWarned
                   (snd (setupSignalHandler (os env) initialSigState))
            else []).
    rewrite <- app_assoc. reflexivity.
Qed.

Lemma main_warns_after_handler_installed_witness :
  keepScreens ["nonexistent"] (allScreens sampleEnv) [] = []
  /\ logFilePath
       (globals (snd (main sampleEnv
                        {| respawnOption := false;
                           logFileOption := Some "/tmp/grefsen.log";
                           configDirOption := None;
                           screenOption := Some ["nonexistent"];
                           windowOption := false |}
                        (initialWorld sampleEnv sceneHeap))))
     = "/tmp/grefsen.log"%string.
Proof.
  split; [reflexivity|].
  exact (proj1
    (main_warns_after_handler_installed sampleEnv
       {| respawnOption := false; logFileOption := Some "/tmp/grefsen.log";
          configDirOption := None; screenOption := Some ["nonexistent"];
          windowOption := false |}
       sceneHeap "/tmp/grefsen.log" ["nonexistent"] eq_refl eq_refl eq_refl)).
Defined.

(** * Further properties of the screen filter and the placement *)

Section DisplayMore.

Lemma nat_of_ascii_inj (a b : ascii) : nat_of_ascii a = nat_of_ascii b -> a = b.
Proof.
  intros H. rewrite <- (ascii_nat_embedding a), <- (ascii_nat_embedding b).
  now rewrite H.
Qed.

(** Characters that fold to the same character are the same letter. *)
Lemma foldCase_sameLetter (a b : ascii) :
  foldCase a = foldCase b -> sameLetter a b = true.
Proof.
  unfold foldCase, sameLetter, capitalOf.
  pose proof (nat_ascii_bounded a) as Ba.
  pose proof (nat_ascii_bounded b) as Bb.
  destruct ((65 <=? nat_of_ascii a)%nat && (nat_of_ascii a <=? 90)%nat) eqn:Ua;
    destruct ((65 <=? nat_of_ascii b)%nat && (nat_of_ascii b <=? 90)%nat) eqn:Ub;
    intros H.
  - apply (f_equal nat_of_ascii) in H.
    rewrite !nat_ascii_embedding in H
      by (apply andb_prop in Ua as [_ U]; apply andb_prop in Ub as [_ V];
          apply Nat.leb_le in U, V; lia).
    assert (a = b) by (apply nat_of_ascii_inj; lia). subst.
    now rewrite Ascii.eqb_refl.
  - apply (f_equal nat_of_ascii) in H.
    rewrite nat_ascii_embedding in H
      by (apply andb_prop in Ua as [_ U]; apply Nat.leb_le in U; lia).
    rewrite <- H, Nat.eqb_refl, !andb_true_r, !orb_true_r. reflexivity.
  - apply (f_equal nat_of_ascii) in H.
    rewrite nat_ascii_embedding in H
      by (apply andb_prop in Ub as [_ U]; apply Nat.leb_le in U; lia).
    rewrite H, Nat.eqb_refl, !andb_true_r, orb_true_r. reflexivity.
  - subst. now rewrite Ascii.eqb_refl.
Qed.

Lemma equalsCI_differOnlyInCase (a b : string) :
  equalsCI a b = true -> differOnlyInCase a b = true.
Proof.
  revert b; induction a as [|x a IH]; intros [|y b] H; simpl in *;
    try discriminate; try reflexivity.
  apply andb_prop in H as [Hxy Hab]. apply Ascii.eqb_eq in Hxy.
  rewrite (foldCase_sameLetter x y Hxy). simpl. apply IH, Hab.
Qed.

Lemma contains_same_names (names1 names2 : QStringList) (str : QString)
    (cs : CaseSensitivity) :
  (forall x, In x names1 <-> In x names2) ->
  contains names1 str cs = contains names2 str cs.
Proof.
  intros Hsame. unfold contains.
  apply Bool.eq_true_iff_eq. rewrite !existsb_exists.
  split; intros (x & Hin & Hx); exists x; (split; [apply Hsame, Hin | exact Hx]).
Qed.

End DisplayMore.

(** Property X16.  Which window goes to which screen does not depend on how [-s] was
    written: two lists with the same names, in any order and with any
    repetitions, select the same screens, in the order in which the
    system enumerates them, each at most as often as it is enumerated. *)
Theorem keepScreens_ignores_name_order (names1 names2 : QStringList)
    (screens : list QScreen) :
  (forall x, In x names1 <-> In x names2) ->
  keepScreens names1 screens [] = keepScreens names2 screens []
  /\ keepScreens names1 screens []
     = filter (fun scr => contains names1 (name scr) CaseInsensitive) screens
  /\ (List.length (keepScreens names1 screens []) <= List.length screens)%nat.
Proof.
  intros Hsame. rewrite !keepScreens_filter. cbn [app].
  split; [|split; [reflexivity | apply filter_length_le]].
  apply filter_ext. intros scr. apply contains_same_names, Hsame.
Qed.

Lemma keepScreens_ignores_name_order_witness :
  (forall x, In x ["edp-1"; "hdmi-1"] <-> In x ["hdmi-1"; "edp-1"; "hdmi-1"])
  /\ keepScreens ["edp-1"; "hdmi-1"] [screenLeft; screenRight] []
     = keepScreens ["hdmi-1"; "edp-1"; "hdmi-1"] [screenLeft; screenRight] [].
Proof.
  assert (H : forall x, In x ["edp-1"; "hdmi-1"]
                        <-> In x ["hdmi-1"; "edp-1"; "hdmi-1"]).
  { intros x. simpl. tauto. }
  split; [exact H|].
  exact (proj1 (keepScreens_ignores_name_order _ _ [screenLeft; screenRight] H)).
Defined.

(** Property X17.  Windowed mode resizes and moves nothing and makes nothing
    fullscreen: whatever the windows and screens, with or without
    repetitions, every window has after the loop the geometry it had
    before, and is in the state it was in or in normal state. *)
Theorem windowLoop_windowed_keeps_geometry (W : list QWindowPtr)
    (D : list QScreen) (w : World) (q : QWindowPtr) :
  win_geometry (heap (snd (windowLoop true W D w)) q)
  = win_geometry (heap w q)
  /\ (win_visibility (heap (snd (windowLoop true W D w)) q)
      = win_visibility (heap w q)
      \/ win_visibility (heap (snd (windowLoop true W D w)) q) = Windowed)
  /\ exists calls : list Event,
       events (snd (windowLoop true W D w)) = events w ++ calls
       /\ Forall (fun e => match e with
                           | CalledSetGeometry _ _
                           | CalledShowFullScreen _ => False
                           | _ => True
                           end) calls.
Proof.
  rewrite windowLoop_run. cbn [snd heap events].
  generalize (heap w) as h. generalize (combine W D) as pairs.
  intros pairs. split; [|split].
  - revert h. induction pairs as [|[window screen] rest IH]; intros h;
      cbn [fold_left]; [reflexivity|].
    rewrite IH.
    destruct (Nat.eq_dec q window) as [->|Hne].
    + now rewrite place_self.
    + now rewrite place_other.
  - revert h. induction pairs as [|[window screen] rest IH]; intros h;
      cbn [fold_left]; [left; reflexivity|].
    destruct (IH (place true h (window, screen))) as [E|E];
      [|right; exact E].
    rewrite E.
    destruct (Nat.eq_dec q window) as [->|Hne].
    + right. now rewrite place_self.
    + left. now rewrite place_other.
  - eexists. split; [reflexivity|].
    induction pairs as [|[window screen] rest IH]; cbn [flat_map callsFor app];
      [constructor|].
    constructor; [exact I|]. constructor; [exact I | exact IH].
Qed.

(** Property X18.  Fullscreen mode keeps window and screen consistent, also when a
    window occurs more than once: after the loop every window is either
    as it was, or fullscreen on one of the screens it was paired with,
    with exactly that screen's geometry. *)
Theorem windowLoop_fullscreen_fills_its_screen (W : list QWindowPtr)
    (D : list QScreen) (w : World) (q : QWindowPtr) :
  heap (snd (windowLoop false W D w)) q = heap w q
  \/ exists screen : QScreen,
       In (q, screen) (combine W D)
       /\ heap (snd (windowLoop false W D w)) q
          = {| win_screen := Some screen;
               win_geometry := geometry screen;
               win_visibility := FullScreen |}.
Proof.
  rewrite windowLoop_run. cbn [snd heap].
  generalize (heap w) as h. generalize (combine W D) as pairs.
  induction pairs as [|[window screen] rest IH]; intros h; cbn [fold_left].
  - left; reflexivity.
  - destruct (IH (place false h (window, screen))) as [E|(s & Hin & E)].
    + rewrite E. destruct (Nat.eq_dec q window) as [->|Hne].
      * right. exists screen. split; [left; reflexivity | apply place_self].
      * left. now apply place_other.
    + right. exists s. split; [right; exact Hin | exact E].
Qed.

(** * Further properties of the signal handler *)

Lemma vformat_notice (pid signal : Z) (path : string) :
  fprintf ("crashed (PID %lld SIG %d): respawn %s" ++ newline)%string
    [ArgInt pid; ArgInt signal; ArgStr path]
  = ("crashed (PID " ++ fmtInt false 0 pid ++ " SIG " ++ fmtInt false 0 signal
       ++ "): respawn " ++ path ++ newline)%string.
Proof.
  unfold fprintf.
  change (parse None ("crashed (PID %lld SIG %d): respawn %s" ++ newline)%string)
    with ([Lit "c"; Lit "r"; Lit "a"; Lit "s"; Lit "h"; Lit "e"; Lit "d";
           Lit " "; Lit "("; Lit "P"; Lit "I"; Lit "D"; Lit " ";
           Dir false 0 ConvD;
           Lit " "; Lit "S"; Lit "I"; Lit "G"; Lit " ";
           Dir false 0 ConvD;
           Lit ")"; Lit ":"; Lit " "; Lit "r"; Lit "e"; Lit "s"; Lit "p";
           Lit "a"; Lit "w"; Lit "n"; Lit " ";
           Dir false 0 ConvS; Lit LF]%char).
  cbn [vformat]. unfold fmtStr.
  change (0 - String.length path)%nat with 0%nat.
  cbn [replicate String.append]. rewrite ?append_assoc. reflexivity.
Qed.

(** Property X19.  The child of the crashed process, in order: it kills the recorded
    pid with signal 9, tells standard error which pid crashed on which
    signal and which path it respawns, and calls [execl]; when [execl]
    fails it exits with [EXIT_FAILURE] and never returns into the
    crashed program. *)
Theorem signalHandler_child_branch (g : Globals) (signal : Z) (execOk : bool) :
  fst (signalHandler g signal 0 execOk)
  = [Fork;
     Kill (grefsonPID g) 9;
     WriteStderr
       ("crashed (PID " ++ fmtInt false 0 (grefsonPID g)
          ++ " SIG " ++ fmtInt false 0 signal
          ++ "): respawn " ++ grefsonExecutablePath g ++ newline)%string;
     Execl (grefsonExecutablePath g) [grefsonExecutablePath g]]
    ++ (if execOk then [] else [Exit_ EXIT_FAILURE])
  /\ snd (signalHandler g signal 0 execOk)
     = if execOk
       then ImageReplaced (grefsonExecutablePath g) [grefsonExecutablePath g]
       else ProcessExits EXIT_FAILURE.
Proof.
  unfold signalHandler, constData. cbn [Z.eqb].
  rewrite vformat_notice. destruct execOk; split; reflexivity.
Qed.

(** Property X20.  The handler in all its ways out: it returns only when [fork]
    failed, and then it has done nothing else; when it ends the process
    the status is [EXIT_FAILURE], never 0; and an image is replaced only
    in the child, by the recorded executable with no arguments. *)
Theorem signalHandler_ways_out (g : Globals) (signal : Z) (pid : Z)
    (execOk : bool) :
  match snd (signalHandler g signal pid execOk) with
  | HandlerReturns =>
    pid = -1 /\ fst (signalHandler g signal pid execOk) = [Fork]
  | ProcessExits status =>
    status = EXIT_FAILURE /\ status <> 0 /\ pid <> -1
    /\ In (Exit_ EXIT_FAILURE) (fst (signalHandler g signal pid execOk))
  | ImageReplaced path argv =>
    pid = 0 /\ execOk = true
    /\ path = grefsonExecutablePath g /\ argv = [grefsonExecutablePath g]
  end.
Proof.
  unfold signalHandler, constData.
  destruct (Z.eqb_spec pid (-1)) as [->|Hne]; [split; reflexivity|].
  destruct (Z.eqb_spec pid 0) as [->|Hnz].
  - destruct execOk; cbn [snd fst].
    + repeat split.
    + repeat split; try discriminate; try assumption.
      simpl. tauto.
  - cbn [snd fst]. repeat split; try discriminate; try assumption.
    simpl. tauto.
Qed.

(** * The parent and the child of a crash *)

Section CrashRunFacts.

Variable g : Globals.
Variable signal : Z.
Variable pid : Z.
Variable execOk : bool.
Variable killOk : bool.
Hypothesis pid_positive : 0 < pid.













End CrashRunFacts.




(** The exit of the parent is not dead in the model: when the kill
    fails and [execl] fails too, the child exits and the parent leaves
    [waitpid] and exits with [EXIT_FAILURE]. *)
Example crash_parent_exits_when_kill_fails :
  parentEnd
    (crashRun 4711 false
       (crashStart
          {| grefsonExecutablePath := "/usr/bin/grefsen"; grefsonPID := 4711;
             signalHandlerStack := Some 4096; logFilePath := EmptyString;
             grefsenConfigDirPath := "/home/user/.config/grefsen/" |}
          11 4712 false)
       [ParentTurn; ChildTurn; ChildTurn; ChildTurn; ChildTurn;
        ParentTurn; ParentTurn])
  = Some (ExitedWith EXIT_FAILURE).
Proof. vm_compute. reflexivity. Qed.

(** * The log file at the end of a call *)

Section LogAtReturn.

Local Open Scope string_scope.

Variable path : QString.

(** What the file holds when the handler has made its writes, whether or
    not the file is open. *)
Lemma qtMsgLog_at_return (openOk : bool) (ts : Z) (log : option QFile)
    (type : QtMsgType) (context : QMessageLogContext) (msg : QString) :
  isOpen (fst (qtMsgLog path openOk ts log type context msg))
  = isOpen (opened path openOk log)
  /\ contents (fst (qtMsgLog path openOk ts log type context msg))
     = if isOpen (opened path openOk log)
       then contents (opened path openOk log)
            ++ recordText ts type context msg
       else contents (opened path openOk log).
Proof.
  rewrite qtMsgLog_writes. cbn [fst].
  destruct (isOpen (opened path openOk log)) eqn:Ho.
  - split.
    + destruct (function context); rewrite !isOpen_write; exact Ho.
    + unfold recordText. rewrite qtMsgLog_contents. cbn [contentsAtEntry].
      rewrite snprintf_prefix.
      destruct (function context) as [fn|];
        rewrite !contents_write by (rewrite ?isOpen_write; exact Ho);
        unfold snprintf, toUtf8; rewrite ?vformat_origin;
        change (64 - 1)%nat with 63%nat;
        rewrite !append_assoc; reflexivity.
  - assert (Hw : forall d, QFile_write (opened path openOk log) d
                           = opened path openOk log)
      by (intros d; apply write_closed, Ho).
    destruct (function context); rewrite !Hw, Ho; split; reflexivity.
Qed.

End LogAtReturn.

(** Claim C2, as the code has it.  For a record of severity fatal,
    whatever the message, its origin, the clock and the log file, the
    handler ends in [abort()] and a process logging records logs none
    after it.  The abort follows the handler's four writes: if the file
    is open after the handler's [open] line, it holds at the abort what
    it held plus the whole record, marked [F]; if the file could not be
    opened, it is still closed and holds nothing of the record. *)
Theorem qtMsgLog_fatal_aborts_after_writes (path : QString) (openOk : bool)
    (ts : Z) (log : option QFile) (context : QMessageLogContext)
    (msg : QString) :
  snd (qtMsgLog path openOk ts log QtFatalMsg context msg) = Aborted
  /\ isOpen (fst (qtMsgLog path openOk ts log QtFatalMsg context msg))
     = isOpen (opened path openOk log)
  /\ contents (fst (qtMsgLog path openOk ts log QtFatalMsg context msg))
     = (if isOpen (opened path openOk log)
        then contents (opened path openOk log)
             ++ recordText ts QtFatalMsg context msg
        else contents (opened path openOk log))%string
  /\ recordText ts QtFatalMsg context msg
     = (("[" ++ fmtInt false 6 (Z.quot ts 1000) ++ "."
             ++ fmtInt true 3 (Z.rem ts 1000) ++ " F] ")
        ++ match function context with
           | Some fn =>
             truncate 63 (fn ++ ":" ++ fmtInt false 0 (line context) ++ ": ")
           | None => EmptyString
           end
        ++ msg ++ newline)%string
  /\ forall rest : list LogRecord,
       logAll path openOk log
         ({| elapsedMillis := ts; severity := QtFatalMsg;
             origin := context; message := msg |} :: rest)
       = (Some (fst (qtMsgLog path openOk ts log QtFatalMsg context msg)),
          Aborted).
Proof.
  destruct (qtMsgLog_at_return path openOk ts log QtFatalMsg context msg)
    as [Hopen Hcont].
  split; [rewrite qtMsgLog_writes; reflexivity|].
  split; [exact Hopen|]. split; [exact Hcont|]. split.
  - unfold recordText. rewrite qtMsgLog_contents. reflexivity.
  - intros rest. cbn [logAll elapsedMillis severity origin message].
    rewrite qtMsgLog_writes. reflexivity.
Qed.

(** Claim C2, as the claims word it: a fatal record is not always
    written before the process aborts.  With a log file that cannot be
    opened the handler aborts and the file holds nothing. *)
Lemma fatal_record_unwritten_at_abort :
  snd (qtMsgLog "/var/log/grefsen.log" false 1234 None QtFatalMsg
         {| function := Some "foo"; line := 10 |} "bar") = Aborted
  /\ isOpen (fst (qtMsgLog "/var/log/grefsen.log" false 1234 None QtFatalMsg
                    {| function := Some "foo"; line := 10 |} "bar")) = false
  /\ contents (fst (qtMsgLog "/var/log/grefsen.log" false 1234 None QtFatalMsg
                      {| function := Some "foo"; line := 10 |} "bar"))
     = EmptyString.
Proof. repeat split. Qed.

(** * The screen filter over any case-folding table *)

Section CaselessFacts.

Variable Char : Type.
Variable charEqb : Char -> Char -> bool.
Variable toCaseFolded : Char -> Char.
Variable Screen : Type.
Variable nameOf : Screen -> list Char.
Hypothesis charEqb_eq : forall x y, charEqb x y = true <-> x = y.

(** The character-by-character comparison decides the caseless match. *)
Lemma caseless_equalsCI (a b : list Char) :
  Caseless.equalsCI Char charEqb toCaseFolded a b = true
  <-> Caseless.caselessMatch Char toCaseFolded a b.
Proof.
  unfold Caseless.caselessMatch.
  revert b; induction a as [|x a IH]; intros [|y b]; cbn [Caseless.equalsCI map];
    try (split; [reflexivity || discriminate | reflexivity || discriminate]).
  rewrite andb_true_iff, charEqb_eq, IH. split.
  - intros [-> ->]. reflexivity.
  - intros H. injection H as H1 H2. split; assumption.
Qed.

Lemma caseless_keepScreens_filter (scrNames : list (list Char))
    (screens keepers : list Screen) :
  Caseless.keepScreens Char charEqb toCaseFolded Screen nameOf
    scrNames screens keepers
  = keepers
    ++ filter (fun scr => Caseless.contains Char charEqb toCaseFolded
                            scrNames (nameOf scr)) screens.
Proof.
  revert keepers; induction screens as [|scr rest IH]; intros keepers;
    cbn [Caseless.keepScreens filter].
  - now rewrite app_nil_r.
  - rewrite IH.
    destruct (Caseless.contains Char charEqb toCaseFolded scrNames (nameOf scr));
      [rewrite <- app_assoc|]; reflexivity.
Qed.

Lemma caseless_keepScreens_In (scrNames : list (list Char))
    (screens : list Screen) (scr : Screen) :
  In scr (Caseless.keepScreens Char charEqb toCaseFolded Screen nameOf
            scrNames screens [])
  <-> In scr screens
      /\ exists requested : list Char,
           In requested scrNames
           /\ Caseless.caselessMatch Char toCaseFolded requested (nameOf scr).
Proof.
  rewrite caseless_keepScreens_filter. cbn [app]. rewrite filter_In.
  unfold Caseless.contains. rewrite existsb_exists.
  split; intros (Hscr & requested & Hin & Hm); (split; [exact Hscr|]);
    exists requested; (split; [exact Hin|]); apply caseless_equalsCI, Hm.
Qed.

End CaselessFacts.

(** [Display.keepScreens] is the filter at bytes and the Basic Latin
    rows of the folding table. *)
Lemma equalsCI_instance (a b : QString) :
  Caseless.equalsCI ascii Ascii.eqb foldCase (Caseless.bytes a) (Caseless.bytes b)
  = equalsCI a b.
Proof.
  revert b; induction a as [|x a IH]; intros [|y b]; simpl; try reflexivity.
  now rewrite IH.
Qed.

Lemma contains_instance (scrNames : QStringList) (str : QString) :
  Caseless.contains ascii Ascii.eqb foldCase
    (map Caseless.bytes scrNames) (Caseless.bytes str)
  = contains scrNames str CaseInsensitive.
Proof.
  unfold Caseless.contains, contains.
  induction scrNames as [|s rest IH]; cbn [map existsb]; [reflexivity|].
  now rewrite equalsCI_instance, IH.
Qed.

Lemma keepScreens_instance (scrNames : QStringList) (screens keepers : list QScreen) :
  Caseless.keepScreens ascii Ascii.eqb foldCase QScreen Caseless.screenBytes
    (map Caseless.bytes scrNames) screens keepers
  = keepScreens scrNames screens keepers.
Proof.
  revert keepers; induction screens as [|scr rest IH]; intros keepers;
    cbn [Caseless.keepScreens keepScreens]; [reflexivity|].
  change (Caseless.screenBytes scr) with (Caseless.bytes (name scr)).
  now rewrite contains_instance, IH.
Qed.

(** Claim C9.  The filter matches names case-insensitively, whatever
    the alphabet and the case-folding table, Qt's included: a screen
    whose name differs from a requested name only in letter case, the
    two being the same string once case is folded, is kept.  The filter
    main computes with is this filter at the Basic Latin letters: there
    a screen whose name differs from a requested one only by capitals
    for small letters or small letters for capitals is kept, and main
    goes on with a selection that contains it. *)
Theorem screen_filter_matches_caselessly (Char : Type)
    (charEqb : Char -> Char -> bool) (toCaseFolded : Char -> Char)
    (Screen : Type) (nameOf : Screen -> list Char)
    (scrNames : list (list Char)) (screens : list Screen) (scr : Screen)
    (requested : list Char) :
  (forall x y, charEqb x y = true <-> x = y) ->
  In scr screens ->
  In requested scrNames ->
  Caseless.caselessMatch Char toCaseFolded requested (nameOf scr) ->
  Caseless.contains Char charEqb toCaseFolded scrNames (nameOf scr) = true
  /\ In scr (Caseless.keepScreens Char charEqb toCaseFolded Screen nameOf
               scrNames screens [])
  /\ (forall (names : QStringList) (enumerated : list QScreen),
        keepScreens names enumerated []
        = Caseless.keepScreens ascii Ascii.eqb foldCase QScreen
            Caseless.screenBytes (map Caseless.bytes names) enumerated [])
  /\ (forall (opts : Options) (names : QStringList)
             (enumerated : list QScreen) (display : QScreen) (wanted : QString)
             (w : World),
        screenOption opts = Some names ->
        In display enumerated ->
        In wanted names ->
        differOnlyInCase wanted (name display) = true ->
        contains names (name display) CaseInsensitive = true
        /\ In display (keepScreens names enumerated [])
        /\ selectScreens opts enumerated w
           = (Next (keepScreens names enumerated []), w)).
Proof.
  intros Heqb Hscr Hreq Hmatch.
  assert (Hkept : In scr (Caseless.keepScreens Char charEqb toCaseFolded
                            Screen nameOf scrNames screens []))
    by (apply (caseless_keepScreens_In Char charEqb toCaseFolded Screen nameOf
                 Heqb); split; [exact Hscr | exists requested; auto]).
  split; [|split; [exact Hkept | split]].
  - unfold Caseless.contains. apply existsb_exists. exists requested.
    split; [exact Hreq|].
    apply (caseless_equalsCI Char charEqb toCaseFolded Heqb), Hmatch.
  - intros names enumerated. symmetry. apply keepScreens_instance.
  - intros opts names enumerated display wanted w Hopt Hd Hw Hcase.
    assert (Hc : contains names (name display) CaseInsensitive = true)
      by (eapply contains_insensitive;
          [exact Hw | apply differOnlyInCase_equalsCI, Hcase]).
    assert (Hk : In display (keepScreens names enumerated []))
      by (apply keepScreens_In; split; assumption).
    split; [exact Hc|]. split; [exact Hk|].
    rewrite selectScreens_run, Hopt.
    destruct (keepScreens names enumerated []); [contradiction | reflexivity].
Qed.

Lemma screen_filter_matches_caselessly_witness :
  (forall x y : ascii, Ascii.eqb x y = true <-> x = y)
  /\ In screenLeft [screenLeft; screenRight]
  /\ In (Caseless.bytes "hdmi-1") [Caseless.bytes "hdmi-1"]
  /\ Caseless.caselessMatch ascii foldCase
       (Caseless.bytes "hdmi-1") (Caseless.screenBytes screenLeft)
  /\ In screenLeft
       (Caseless.keepScreens ascii Ascii.eqb foldCase QScreen
          Caseless.screenBytes [Caseless.bytes "hdmi-1"]
          [screenLeft; screenRight] []).
Proof.
  split; [exact Ascii.eqb_eq|].
  split; [left; reflexivity|]. split; [left; reflexivity|].
  split; [reflexivity|].
  exact (proj1 (proj2
    (screen_filter_matches_caselessly ascii Ascii.eqb foldCase QScreen
       Caseless.screenBytes [Caseless.bytes "hdmi-1"]
       [screenLeft; screenRight] screenLeft (Caseless.bytes "hdmi-1")
       Ascii.eqb_eq (or_introl eq_refl) (or_introl eq_refl) eq_refl))).
Defined.

(** Property X15.  The filter keeps exactly what was asked for, over
    any alphabet and any case-folding table, Qt's included: a screen is
    kept if and only if it is one of the enumerated screens and some
    requested name is its name once case is folded.  A screen nobody
    named is never kept. *)
Theorem keepScreens_exactly_caseless_matches (Char : Type)
    (charEqb : Char -> Char -> bool) (toCaseFolded : Char -> Char)
    (Screen : Type) (nameOf : Screen -> list Char)
    (scrNames : list (list Char)) (screens : list Screen) (scr : Screen) :
  (forall x y, charEqb x y = true <-> x = y) ->
  (In scr (Caseless.keepScreens Char charEqb toCaseFolded Screen nameOf
             scrNames screens [])
   <-> In scr screens
       /\ exists requested : list Char,
            In requested scrNames
            /\ Caseless.caselessMatch Char toCaseFolded requested (nameOf scr)).
Proof.
  intros Heqb. apply caseless_keepScreens_In, Heqb.
Qed.

Lemma keepScreens_exactly_caseless_matches_witness :
  (forall x y : ascii, Ascii.eqb x y = true <-> x = y)
  /\ ~ In screenRight
         (Caseless.keepScreens ascii Ascii.eqb foldCase QScreen
            Caseless.screenBytes [Caseless.bytes "hdmi-1"]
            [screenLeft; screenRight] []).
Proof.
  split; [exact Ascii.eqb_eq|].
  intros Hin.
  apply (keepScreens_exactly_caseless_matches ascii Ascii.eqb foldCase QScreen
           Caseless.screenBytes [Caseless.bytes "hdmi-1"]
           [screenLeft; screenRight] screenRight Ascii.eqb_eq) in Hin.
  destruct Hin as (_ & requested & [<-|[]] & Hm). discriminate Hm.
Defined.

(** Property X9.  main has two ways out.  When screens were asked for
    with [-s] and none of them exists it takes the early return, with
    -1 and without entering the event loop.  In every other case it
    enters the event loop and returns what the event loop returns,
    whatever that value is. *)
Theorem main_return_value (env : Env) (opts : Options) (h : Heap) :
  match screenOption opts, selectedScreens env opts with
  | Some _, [] =>
    fst (main env opts (initialWorld env h)) = Leave (-1)
    /\ ~ In EventLoopEntered (events (snd (main env opts (initialWorld env h))))
  | _, _ =>
    fst (main env opts (initialWorld env h)) = Next (execResult env)
    /\ In EventLoopEntered (events (snd (main env opts (initialWorld env h))))
  end.
Proof.
  destruct (captureAndConfigure_run env opts (initialWorld env h))
    as (w1 & vars & evs & Hrun & _ & _ & _ & _ & _ & Hev & Hstart).
  cbn [initialWorld events app] in Hev.
  rewrite main_result, Hrun. cbn [snd].
  assert (Hloop : forall screens,
            fst (placeAndRun env opts screens w1) = Next (execResult env)
            /\ In EventLoopEntered (events (snd (placeAndRun env opts screens w1)))).
  { intros screens. rewrite placeAndRun_run. cbn [fst snd events].
    split; [reflexivity|].
    rewrite !app_assoc. apply in_or_app. right. left. reflexivity. }
  destruct (screenOption opts) as [scrNames|],
           (selectedScreens env opts) as [|scr screens];
    try apply Hloop.
  cbn [fst snd withEvents events]. split; [reflexivity|].
  rewrite Hev. intros Hin. apply in_app_or in Hin as [Hin|[Hin|Hin]].
  - exact (startup_no_event_loop evs Hstart Hin).
  - discriminate.
  - apply in_map_iff in Hin as (scr & Hscr & _). discriminate.
Qed.
